(** * Queryable: a LINQ-style query layer over in-memory arrays

    A shallow embedding of [src/queryable/queryable.ts].  The class
    [Queryable<T>] wraps one JavaScript array; every method either builds
    a new array and wraps it, or computes a scalar from the wrapped array.

    Layout of the development:
    - [value]: the run-time values an array can hold;
    - built-ins of the language the class calls ([Array.prototype.map],
      [filter], [slice], [sort], [find], [reduce], [Set], property lookup
      on an object literal), as functions on lists;
    - [heap] and the monad [M]: arrays and wrappers are heap objects with
      identity, so that in-place updates ([sort], [reverse]) and aliasing
      ([toArray] hands out the backing array) are visible;
    - the methods of the class, in [M];
    - the properties.

    Selectors and predicates are functions of the element alone, as the
    specification requires of them; arrays have no holes. *)

From Stdlib Require Import ZArith List Bool Lia Floats Uint63 Permutation Sorted.
From stdpp Require Import gmap strings list fin_maps.
Import ListNotations.

Local Open Scope Z_scope.

(** ** Values *)

(** A JavaScript value as stored in an array.  Numbers are IEEE 754
    binary64 (the kernel's [float]); an object has an identity and its
    own properties, which selectors and predicates may read.  The
    library itself never looks inside an element. *)
#[warnings="-register-all"]
Inductive value : Type :=
| undefined
| null
| VBoolean (b : bool)
| VNumber (n : float)
| VString (s : string)
| VObject (id : nat) (props : list (string * value)).

(** [Selector<T, U>] and [Predicate<T>] of the source.  The static types
    [T] and [U] are erased at run time. *)
Definition Selector (U : Type) : Type := value -> U.
Definition Predicate : Type := value -> bool.

(** The class of a value under the SameValueZero comparison, which is
    what [Set.prototype.has] uses: NaN equals NaN, [+0] equals [-0],
    objects are compared by identity. *)
Inductive svz_class : Type :=
| CUndefined | CNull | CBoolean (b : bool) | CNumber (n : float)
| CString (s : string) | CObject (id : nat).

Definition normalize_zero (n : float) : float :=
  if PrimFloat.eqb n PrimFloat.zero then PrimFloat.zero else n.

Definition classify_value (v : value) : svz_class :=
  match v with
  | undefined => CUndefined
  | null => CNull
  | VBoolean b => CBoolean b
  | VNumber n => CNumber (normalize_zero n)
  | VString s => CString s
  | VObject id _ => CObject id
  end.

Definition svz_class_eqb (a b : svz_class) : bool :=
  match a, b with
  | CUndefined, CUndefined => true
  | CNull, CNull => true
  | CBoolean x, CBoolean y => Bool.eqb x y
  | CNumber x, CNumber y => PrimFloat.Leibniz.eqb x y
  | CString s, CString t => String.eqb s t
  | CObject i, CObject j => Nat.eqb i j
  | _, _ => false
  end.

Definition SameValueZero (a b : value) : bool :=
  svz_class_eqb (classify_value a) (classify_value b).

(** [x !== undefined] *)
Definition is_undefined (v : value) : bool :=
  match v with undefined => true | _ => false end.

(** ** Integer conversion of a Number argument *)

(** ToIntegerOrInfinity of ECMAScript: NaN and the zeros give 0, the
    infinities are kept, any other number is truncated toward zero. *)
Inductive IntegerOrInfinity : Type :=
| NegInfinity
| Integer (k : Z)
| PosInfinity.

Definition truncate (neg : bool) (m : positive) (e : Z) : Z :=
  let a := if 0 <=? e then Z.pos m * 2 ^ e else Z.pos m / 2 ^ (- e) in
  if neg then - a else a.

Definition ToIntegerOrInfinity (n : float) : IntegerOrInfinity :=
  match Prim2SF n with
  | S754_nan => Integer 0
  | S754_zero _ => Integer 0
  | S754_infinity false => PosInfinity
  | S754_infinity true => NegInfinity
  | S754_finite neg m e => Integer (truncate neg m e)
  end.

(** The Number of an array length.  A length is below [2^32], so the
    conversion is exact. *)
Definition Number_of_length (n : nat) : float :=
  PrimFloat.of_uint63 (Uint63.of_Z (Z.of_nat n)).

(** ** Built-ins on arrays, as functions on lists *)

Module Array.

(** The relative index of [slice]: a negative argument counts from the
    end, and the result is clamped to [0, len]. *)
Definition relativeIndex (len : nat) (k : IntegerOrInfinity) : nat :=
  match k with
  | NegInfinity => 0%nat
  | Integer k =>
      if k <? 0 then Z.to_nat (Z.max (Z.of_nat len + k) 0)
      else Z.to_nat (Z.min k (Z.of_nat len))
  | PosInfinity => len
  end.

(** [arr.slice(start, end)]; [end] omitted means the length. *)
Definition slice (start : IntegerOrInfinity) (end_ : option IntegerOrInfinity)
    (arr : list value) : list value :=
  let len := length arr in
  let k := relativeIndex len start in
  let final := match end_ with
               | None => len
               | Some e => relativeIndex len e
               end in
  firstn (final - k) (skipn k arr).

(** [arr.find(predicate)]: the first element the predicate accepts,
    [undefined] when there is none. *)
Fixpoint find (predicate : Predicate) (arr : list value) : value :=
  match arr with
  | [] => undefined
  | x :: rest => if predicate x then x else find predicate rest
  end.

(** [arr[i]]: [undefined] outside the array. *)
Definition get (arr : list value) (i : Z) : value :=
  if i <? 0 then undefined else nth (Z.to_nat i) arr undefined.

(** [arr.reduce(f, init)] *)
Definition reduce {A : Type} (f : A -> value -> A) (arr : list value) (init : A) : A :=
  fold_left f arr init.

(** SortCompare of ECMAScript: [undefined] elements go last without
    the comparator being called. *)
Definition SortCompare (comparefn : value -> value -> Z) (x y : value) : Z :=
  match x, y with
  | undefined, undefined => 0
  | undefined, _ => 1
  | _, undefined => -1
  | _, _ => comparefn x y
  end.

(** [arr.sort(comparefn)].  ECMAScript requires the sort to be stable
    and leaves the algorithm open; for a consistent comparator the
    result does not depend on it (see [sort_unique]).  The model is
    the insertion sort: each element goes before the first element of
    the sorted rest that is not to be placed before it. *)
Fixpoint sort_insert (comparefn : value -> value -> Z) (x : value) (sorted : list value)
    : list value :=
  match sorted with
  | [] => [x]
  | y :: rest =>
      if 0 <? SortCompare comparefn x y
      then y :: sort_insert comparefn x rest
      else x :: y :: rest
  end.

Fixpoint sort (comparefn : value -> value -> Z) (arr : list value) : list value :=
  match arr with
  | [] => []
  | x :: rest => sort_insert comparefn x (sort comparefn rest)
  end.

End Array.

(** [new Set()]: the keys in insertion order, membership by
    SameValueZero. *)
Module JsSet.

Definition t : Type := list value.

Definition empty : t := [].

Definition has (s : t) (key : value) : bool :=
  existsb (SameValueZero key) s.

Definition add (s : t) (key : value) : t :=
  if has s key then s else s ++ [key].

End JsSet.

(** ** The heap *)

Abbreviation loc := nat.

(** The heap objects of the library: arrays and [Queryable] wrappers.
    The only field of a wrapper, [collection], is private and assigned
    once, by the constructor. *)
Inductive cell : Type :=
| ArrayCell (elements : list value)
| QueryableCell (collection : loc).

Abbreviation heap := (list cell).

Inductive error : Type := TypeError.

Inductive outcome (A : Type) : Type :=
| Normal (a : A) (h : heap)
| Throw (e : error).
Arguments Normal {A} a h.
Arguments Throw {A} e.

(** A computation reads and extends the heap and may throw. *)
Definition M (A : Type) : Type := heap -> outcome A.

Definition ret {A : Type} (a : A) : M A := fun h => Normal a h.

Definition bind {A B : Type} (m : M A) (k : A -> M B) : M B :=
  fun h => match m h with
           | Normal a h' => k a h'
           | Throw e => Throw e
           end.

Definition throw {A : Type} (e : error) : M A := fun _ => Throw e.

Notation "'let*' x ':=' m 'in' k" := (bind m (fun x => k))
  (at level 10, x name, m at level 100, k at level 200).

(** Allocation returns the next free location. *)
Definition alloc (c : cell) : M loc :=
  fun h => Normal (length h) (h ++ [c]).

(** Reading through a reference that is not an array is a [TypeError]
    (a property of [undefined] is read). *)
Definition read_array (a : loc) : M (list value) :=
  fun h => match h !! a with
           | Some (ArrayCell elements) => Normal elements h
           | _ => Throw TypeError
           end.

Definition write_array (a : loc) (elements : list value) : M unit :=
  fun h => match h !! a with
           | Some (ArrayCell _) => Normal tt (<[a := ArrayCell elements]> h)
           | _ => Throw TypeError
           end.

(** Array methods on references.  [map], [filter], [slice] and the
    spread [[...arr]] allocate the array they return; [sort] and
    [reverse] update their receiver in place and return it. *)
Module ArrayRef.

Definition literal (elements : list value) : M loc :=
  alloc (ArrayCell elements).

Definition map (arr : loc) (f : value -> value) : M loc :=
  let* elements := read_array arr in
  alloc (ArrayCell (List.map f elements)).

Definition filter (arr : loc) (predicate : Predicate) : M loc :=
  let* elements := read_array arr in
  alloc (ArrayCell (List.filter predicate elements)).

Definition slice (arr : loc) (start : IntegerOrInfinity)
    (end_ : option IntegerOrInfinity) : M loc :=
  let* elements := read_array arr in
  alloc (ArrayCell (Array.slice start end_ elements)).

Definition spread (arr : loc) : M loc :=
  let* elements := read_array arr in
  alloc (ArrayCell elements).

Definition sort (arr : loc) (comparefn : value -> value -> Z) : M loc :=
  let* elements := read_array arr in
  let* _ := write_array arr (Array.sort comparefn elements) in
  ret arr.

Definition reverse (arr : loc) : M loc :=
  let* elements := read_array arr in
  let* _ := write_array arr (rev elements) in
  ret arr.

Definition find (arr : loc) (predicate : Predicate) : M value :=
  let* elements := read_array arr in
  ret (Array.find predicate elements).

Definition get (arr : loc) (i : Z) : M value :=
  let* elements := read_array arr in
  ret (Array.get elements i).

Definition length (arr : loc) : M nat :=
  let* elements := read_array arr in
  ret (List.length elements).

Definition reduce {A : Type} (arr : loc) (f : A -> value -> A) (init : A) : M A :=
  let* elements := read_array arr in
  ret (Array.reduce f elements init).

Definition some (arr : loc) (predicate : Predicate) : M bool :=
  let* elements := read_array arr in
  ret (existsb predicate elements).

Definition every (arr : loc) (predicate : Predicate) : M bool :=
  let* elements := read_array arr in
  ret (forallb predicate elements).

Definition forEach {S : Type} (arr : loc) (f : S -> value -> S) (locals : S) : M S :=
  let* elements := read_array arr in
  ret (fold_left f elements locals).

End ArrayRef.

(** ** The object literal of [groupBy] *)

(** [U extends string | number]: the keys a group can have. *)
Inductive GroupKey : Type :=
| KString (s : string)
| KNumber (n : float).

(** [{} as Record<U, T[]>]: an ordinary object whose prototype is
    [Object.prototype].  Its own properties hold the group arrays; the
    object and its arrays are local to one call of [groupBy] until it
    returns, so they are kept by value. *)
Module PlainObject.

Abbreviation t := (gmap string (list value)).

Definition empty : t := ∅.

(** The properties every ordinary object inherits.  Each is a function
    (or, for [__proto__], the prototype object): truthy, and without a
    [push] method. *)
Definition Object_prototype : list string :=
  ["constructor"; "hasOwnProperty"; "isPrototypeOf"; "propertyIsEnumerable";
   "toLocaleString"; "toString"; "valueOf"; "__proto__";
   "__defineGetter__"; "__defineSetter__"; "__lookupGetter__"; "__lookupSetter__"]%string.

Definition inherited (key : string) : bool :=
  existsb (String.eqb key) Object_prototype.

(** The result of [obj[key]]. *)
Inductive property : Type :=
| Missing
| Own (elements : list value)
| Inherited.

Definition get (obj : t) (key : string) : property :=
  match obj !! key with
  | Some elements => Own elements
  | None => if inherited key then Inherited else Missing
  end.

(** [!obj[key]]: only [undefined] is falsy here; an array is truthy
    even when empty. *)
Definition not_ (p : property) : bool :=
  match p with Missing => true | _ => false end.

(** [obj[key] = []], reached only where [obj[key]] was [undefined]. *)
Definition set (obj : t) (key : string) (elements : list value) : t :=
  <[key := elements]> obj.

(** [obj[key].push(item)]: on an inherited property, and on
    [undefined], [push] is not a function. *)
Definition push (obj : t) (key : string) (item : value) : M t :=
  match get obj key with
  | Own elements => ret (<[key := elements ++ [item]]> obj)
  | _ => throw TypeError
  end.

End PlainObject.

(** [reduce] with a callback that may throw. *)
Fixpoint reduce_in_M {A : Type} (f : A -> value -> M A) (elements : list value) (acc : A)
    : M A :=
  match elements with
  | [] => ret acc
  | x :: rest => let* acc' := f acc x in reduce_in_M f rest acc'
  end.

(** A parameter [p = dflt] of a function: the default is taken when the
    argument is [undefined], which includes the argument being omitted. *)
Definition default_parameter (arg dflt : value) : value :=
  if is_undefined arg then dflt else arg.

(** ** The class *)

Section Queryable.

(** The [<] operator on two keys (IsLessThan of ECMAScript).  It is a
    built-in whose result depends on the kinds of its operands; the
    development is parametric in it.  [a > b] is evaluated as [b < a]. *)
Variable lessThan : value -> value -> bool.

Definition greaterThan (a b : value) : bool := lessThan b a.

(** Number::toString, used when a Number becomes a property key. *)
Variable NumberToString : float -> string.

Definition ToPropertyKey (key : GroupKey) : string :=
  match key with
  | KString s => s
  | KNumber n => NumberToString n
  end.

(** [this.collection] *)
Definition get_collection (this : loc) : M loc :=
  fun h => match h !! this with
           | Some (QueryableCell collection) => Normal collection h
           | _ => Throw TypeError
           end.

(** [new Queryable(collection)]: the constructor stores the reference
    it is given. *)
Definition new_Queryable (collection : loc) : M loc :=
  alloc (QueryableCell collection).

(** [new Queryable(this.collection.map(selector))] *)
Definition select (this : loc) (selector : Selector value) : M loc :=
  let* collection := get_collection this in
  let* mapped := ArrayRef.map collection selector in
  new_Queryable mapped.

(** [where]: [new Queryable(this.collection.filter(predicate))] *)
Definition where_ (this : loc) (predicate : Predicate) : M loc :=
  let* collection := get_collection this in
  let* filtered := ArrayRef.filter collection predicate in
  new_Queryable filtered.

(** The comparator of [orderBy]:
    [keyA < keyB ? -1 : keyA > keyB ? 1 : 0]. *)
Definition ascending (keySelector : Selector value) (a b : value) : Z :=
  let keyA := keySelector a in
  let keyB := keySelector b in
  if lessThan keyA keyB then -1 else if greaterThan keyA keyB then 1 else 0.

(** The comparator of [orderByDescending]:
    [keyA > keyB ? -1 : keyA < keyB ? 1 : 0]. *)
Definition descending (keySelector : Selector value) (a b : value) : Z :=
  let keyA := keySelector a in
  let keyB := keySelector b in
  if greaterThan keyA keyB then -1 else if lessThan keyA keyB then 1 else 0.

(** [new Queryable([...this.collection].sort(comparator))] *)
Definition orderBy (this : loc) (keySelector : Selector value) : M loc :=
  let* collection := get_collection this in
  let* copy := ArrayRef.spread collection in
  let* sorted := ArrayRef.sort copy (ascending keySelector) in
  new_Queryable sorted.

Definition orderByDescending (this : loc) (keySelector : Selector value) : M loc :=
  let* collection := get_collection this in
  let* copy := ArrayRef.spread collection in
  let* sorted := ArrayRef.sort copy (descending keySelector) in
  new_Queryable sorted.

(** The callback of [reduce] in [groupBy]:
    [if (!groups[key]) groups[key] = []; groups[key].push(item)]. *)
Definition groupBy_callback (keySelector : Selector GroupKey)
    (groups : PlainObject.t) (item : value) : M PlainObject.t :=
  let key := ToPropertyKey (keySelector item) in
  let groups :=
    if PlainObject.not_ (PlainObject.get groups key)
    then PlainObject.set groups key []
    else groups in
  PlainObject.push groups key item.

Definition groupBy (this : loc) (keySelector : Selector GroupKey) : M PlainObject.t :=
  let* collection := get_collection this in
  let* elements := read_array collection in
  reduce_in_M (groupBy_callback keySelector) elements PlainObject.empty.

(** The callback of [forEach] in [distinct], on the two locals
    [uniqueKeys] and [distinctItems].  The array [distinctItems] is kept
    by value until [distinct] wraps it. *)
Definition distinct_callback (keySelector : option (Selector value))
    (locals : JsSet.t * list value) (item : value) : JsSet.t * list value :=
  let '(uniqueKeys, distinctItems) := locals in
  let key := match keySelector with
             | Some f => f item
             | None => item
             end in
  if negb (JsSet.has uniqueKeys key)
  then (JsSet.add uniqueKeys key, distinctItems ++ [item])
  else (uniqueKeys, distinctItems).

Definition distinct (this : loc) (keySelector : option (Selector value)) : M loc :=
  let* collection := get_collection this in
  let* locals := ArrayRef.forEach collection (distinct_callback keySelector)
                   (JsSet.empty, []) in
  let* distinctItems := ArrayRef.literal (snd locals) in
  new_Queryable distinctItems.

(** [new Queryable(this.collection.slice(0, count))] *)
Definition take (this : loc) (count : float) : M loc :=
  let* collection := get_collection this in
  let* sliced := ArrayRef.slice collection (Integer 0) (Some (ToIntegerOrInfinity count)) in
  new_Queryable sliced.

(** [new Queryable(this.collection.slice(count))] *)
Definition skip (this : loc) (count : float) : M loc :=
  let* collection := get_collection this in
  let* sliced := ArrayRef.slice collection (ToIntegerOrInfinity count) None in
  new_Queryable sliced.

(** [toArray] returns the backing array itself, not a copy. *)
Definition toArray (this : loc) : M loc :=
  get_collection this.

(** [this.collection.reduce((acc, item) => acc + selector(item), 0)] *)
Definition sum (this : loc) (selector : Selector float) : M float :=
  let* collection := get_collection this in
  ArrayRef.reduce collection (fun acc item => PrimFloat.add acc (selector item))
    PrimFloat.zero.

(** [this.sum(selector) / this.collection.length] *)
Definition average (this : loc) (selector : Selector float) : M float :=
  let* total := sum this selector in
  let* collection := get_collection this in
  let* length := ArrayRef.length collection in
  ret (PrimFloat.div total (Number_of_length length)).

Definition any (this : loc) (predicate : Predicate) : M bool :=
  let* collection := get_collection this in
  ArrayRef.some collection predicate.

Definition all (this : loc) (predicate : Predicate) : M bool :=
  let* collection := get_collection this in
  ArrayRef.every collection predicate.

(** [predicate ? this.collection.find(predicate) : this.collection[0]] *)
Definition first (this : loc) (predicate : option Predicate) : M value :=
  match predicate with
  | Some p =>
      let* collection := get_collection this in
      ArrayRef.find collection p
  | None =>
      let* collection := get_collection this in
      ArrayRef.get collection 0
  end.

(** As [first], then [item !== undefined ? item : defaultValue], with
    [defaultValue = null] when the argument is not given. *)
Definition firstOrDefault (this : loc) (predicate : option Predicate)
    (defaultValue : value) : M value :=
  let defaultValue := default_parameter defaultValue null in
  let* item :=
    match predicate with
    | Some p =>
        let* collection := get_collection this in
        ArrayRef.find collection p
    | None =>
        let* collection := get_collection this in
        ArrayRef.get collection 0
    end in
  ret (if negb (is_undefined item) then item else defaultValue).

(** [predicate ? [...this.collection].reverse().find(predicate)
              : this.collection[this.collection.length - 1]] *)
Definition last (this : loc) (predicate : option Predicate) : M value :=
  match predicate with
  | Some p =>
      let* collection := get_collection this in
      let* copy := ArrayRef.spread collection in
      let* reversed := ArrayRef.reverse copy in
      ArrayRef.find reversed p
  | None =>
      let* collection := get_collection this in
      let* length := ArrayRef.length collection in
      ArrayRef.get collection (Z.of_nat length - 1)
  end.

Definition lastOrDefault (this : loc) (predicate : option Predicate)
    (defaultValue : value) : M value :=
  let defaultValue := default_parameter defaultValue null in
  let* item :=
    match predicate with
    | Some p =>
        let* collection := get_collection this in
        let* copy := ArrayRef.spread collection in
        let* reversed := ArrayRef.reverse copy in
        ArrayRef.find reversed p
    | None =>
        let* collection := get_collection this in
        let* length := ArrayRef.length collection in
        ArrayRef.get collection (Z.of_nat length - 1)
    end in
  ret (if negb (is_undefined item) then item else defaultValue).

End Queryable.

(** ** Running the methods *)

(** What [this.toArray()] shows: the elements of the backing array. *)
Definition contents (this : loc) : M (list value) :=
  let* arr := toArray this in
  read_array arr.

(** [wraps h this elements]: in [h], [this] is a wrapper and its
    [toArray()] has the elements [elements]. *)
Definition wraps (h : heap) (this : loc) (elements : list value) : Prop :=
  contents this h = Normal elements h.

(** The heap after a fresh array and a wrapper around it are allocated. *)
Definition wrapped (h : heap) (elements : list value) : heap :=
  h ++ [ArrayCell elements; QueryableCell (length h)].

(** [yields m h elements]: run in [h], the method call [m] returns
    normally, and what it returns is a wrapper whose [toArray()] has the
    elements [elements]. *)
Definition yields (m : M loc) (h : heap) (elements : list value) : Prop :=
  exists q h', m h = Normal q h' /\ wraps h' q elements.

(** The operators that return a wrapper. *)
Inductive operator : Type :=
| Select (selector : Selector value)
| Where (predicate : Predicate)
| OrderBy (keySelector : Selector value)
| OrderByDescending (keySelector : Selector value)
| Distinct (keySelector : option (Selector value))
| Take (count : float)
| Skip (count : float).

Definition apply_operator (lessThan : value -> value -> bool)
    (op : operator) (this : loc) : M loc :=
  match op with
  | Select selector => select this selector
  | Where predicate => where_ this predicate
  | OrderBy keySelector => orderBy lessThan this keySelector
  | OrderByDescending keySelector => orderByDescending lessThan this keySelector
  | Distinct keySelector => distinct this keySelector
  | Take count => take this count
  | Skip count => skip this count
  end.

(** [c >= n] for a count [c] and a length [n]: as [n] is a natural
    number, this is the integer part of [c] being at least [n]. *)
Definition at_least (count : float) (n : nat) : Prop :=
  match ToIntegerOrInfinity count with
  | NegInfinity => False
  | Integer k => Z.of_nat n <= k
  | PosInfinity => True
  end.

(** The claim that [take] and [skip] clamp a count to [0, length]. *)
Definition clamps_count (h : heap) (this : loc) (elements : list value)
    (count : float) : Prop :=
  (PrimFloat.ltb count 0 = true ->
     yields (take this count) h [] /\ yields (skip this count) h elements) /\
  (at_least count (length elements) ->
     yields (take this count) h elements /\ yields (skip this count) h []).

(** ** Sample data *)

Definition numbers (l : list float) : list value := List.map VNumber l.

(** [new Queryable([1, 2, 3])] in an empty heap. *)
Definition one_two_three : heap :=
  [ArrayCell (numbers [1; 2; 3]%float); QueryableCell 0].

(** The [<] operator on two Numbers; other operands are not compared. *)
Definition number_lessThan (a b : value) : bool :=
  match a, b with
  | VNumber x, VNumber y => PrimFloat.ltb x y
  | _, _ => false
  end.

(** Whether an optional predicate accepts an element: without a
    predicate every element is accepted. *)
Definition accepts (predicate : option Predicate) (x : value) : bool :=
  match predicate with
  | Some p => p x
  | None => true
  end.

Definition no_match (predicate : option Predicate) (elements : list value) : Prop :=
  Forall (fun x => accepts predicate x = false) elements.

(** The claim that the result of [first] or [last] tells absence apart
    from every element: [undefined] is returned when nothing matches,
    and only then. *)
Definition signals_absence (m : M value) (h : heap)
    (predicate : option Predicate) (elements : list value) : Prop :=
  exists r h',
    m h = Normal r h' /\
    (no_match predicate elements -> r = undefined) /\
    (r = undefined -> no_match predicate elements).

(** [new Queryable([undefined, 1])] in an empty heap. *)
Definition undefined_and_one : heap :=
  [ArrayCell [undefined; VNumber 1]; QueryableCell 0].

(** [new Queryable([])] in an empty heap. *)
Definition empty_array : heap :=
  [ArrayCell []; QueryableCell 0].

(** The ages of the test suite: [[30, 25, 35, 28]]. *)
Definition ages : heap :=
  [ArrayCell (numbers [30; 25; 35; 28]%float); QueryableCell 0].

Definition to_number (v : value) : float :=
  match v with
  | VNumber n => n
  | _ => PrimFloat.nan
  end.

(** ** Orders on keys and on elements *)

(** [strict_weak_order lessThan keys]: on [keys], [<] is asymmetric and
    its complement is transitive, which makes [keys] a chain of classes
    of keys that are neither less nor greater than one another. *)
Definition strict_weak_order (lessThan : value -> value -> bool)
    (keys : list value) : bool :=
  forallb (fun a =>
    forallb (fun b =>
      implb (lessThan a b) (negb (lessThan b a)) &&
      forallb (fun c => lessThan a b || lessThan b c || negb (lessThan a c)) keys)
      keys)
    keys.

(** The elements the comparator of [sort] is called on. *)
Definition defined (elements : list value) : list value :=
  List.filter (fun x => negb (is_undefined x)) elements.

(** [tied a b]: [sort] has no reason to order [a] and [b] one way or
    the other: both are [undefined], or neither is and their keys are
    neither less nor greater than one another. *)
Definition tied (lessThan : value -> value -> bool) (keySelector : Selector value)
    (a b : value) : bool :=
  match a, b with
  | undefined, undefined => true
  | undefined, _ => false
  | _, undefined => false
  | _, _ =>
      negb (lessThan (keySelector a) (keySelector b)) &&
      negb (lessThan (keySelector b) (keySelector a))
  end.

(** [ascending_order a b]: [a] may stand before [b] in an ascending
    result: [b] is [undefined], or neither is and the key of [b] is not
    less than the key of [a]. *)
Definition ascending_order (lessThan : value -> value -> bool)
    (keySelector : Selector value) (a b : value) : Prop :=
  match a, b with
  | _, undefined => True
  | undefined, _ => False
  | _, _ => lessThan (keySelector b) (keySelector a) = false
  end.

Definition descending_order (lessThan : value -> value -> bool)
    (keySelector : Selector value) (a b : value) : Prop :=
  match a, b with
  | _, undefined => True
  | undefined, _ => False
  | _, _ => lessThan (keySelector a) (keySelector b) = false
  end.

(** [stable same result elements]: the elements of each class of
    [elements] stand in [result] in the order they have in [elements]. *)
Definition stable (same : value -> value -> bool) (result elements : list value) : Prop :=
  forall a, In a elements -> List.filter (same a) result = List.filter (same a) elements.

(** [sort_after comparefn x y]: [sort] must place [x] after [y]. *)
Definition sort_after (comparefn : value -> value -> Z) (x y : value) : bool :=
  0 <? Array.SortCompare comparefn x y.

(** [sort_level comparefn x y]: [sort] must place neither after the
    other. *)
Definition sort_level (comparefn : value -> value -> Z) (x y : value) : bool :=
  negb (sort_after comparefn x y) && negb (sort_after comparefn y x).

(** [a < b] read as [b > a]. *)
Definition flip_lessThan (lessThan : value -> value -> bool) (a b : value) : bool :=
  lessThan b a.

(** [same_key a b]: the key of [a] is neither less nor greater than the
    key of [b]. *)
Definition same_key (lessThan : value -> value -> bool) (keySelector : Selector value)
    (a b : value) : bool :=
  negb (lessThan (keySelector a) (keySelector b)) &&
  negb (lessThan (keySelector b) (keySelector a)).


(** The claim about [orderBy]: where [<] orders the keys, the result is
    a permutation of the input, ascending by key, with the elements of
    equal key in their original order. *)
Definition orderBy_claim (lessThan : value -> value -> bool) (h : heap) (this : loc)
    (elements : list value) (keySelector : Selector value) : Prop :=
  strict_weak_order lessThan (List.map keySelector elements) = true ->
  exists result,
    yields (orderBy lessThan this keySelector) h result /\
    Permutation result elements /\
    StronglySorted
      (fun a b => lessThan (keySelector b) (keySelector a) = false) result /\
    stable (same_key lessThan keySelector) result elements.


(** [obj[name]] as a selector reads it. *)
Fixpoint lookup_property (name : string) (props : list (string * value)) : value :=
  match props with
  | [] => undefined
  | (n, v) :: rest => if String.eqb n name then v else lookup_property name rest
  end.

Definition get_property (name : string) (v : value) : value :=
  match v with
  | VObject _ props => lookup_property name props
  | _ => undefined
  end.

(** [x => x ?? d]: a key for every element, [undefined] included. *)
Definition or_else (d : float) (v : value) : value :=
  match v with
  | undefined => VNumber d
  | _ => v
  end.

(** [new Queryable([5, undefined, 3])] in an empty heap. *)
Definition five_undefined_three : heap :=
  [ArrayCell [VNumber 5; undefined; VNumber 3]; QueryableCell 0].


(** [[{k: 1, v: 'a'}, {k: 1, v: 'b'}, {k: 0, v: 'c'}]], the example of
    the specification. *)
Definition item_a : value := VObject 1 [("k", VNumber 1); ("v", VString "a")]%string.
Definition item_b : value := VObject 2 [("k", VNumber 1); ("v", VString "b")]%string.
Definition item_c : value := VObject 3 [("k", VNumber 0); ("v", VString "c")]%string.

Definition items : heap :=
  [ArrayCell [item_a; item_b; item_c]; QueryableCell 0].

(** ** [distinct], as the specification words it *)

(** The key [distinct] gives an item: the selector's when there is one,
    the item itself otherwise. *)
Definition distinct_key (keySelector : option (Selector value)) (item : value) : value :=
  match keySelector with
  | Some f => f item
  | None => item
  end.

(** Follows the specification, not the code: an element is retained
    exactly when no element before it in the sequence has the same key.
    [earlier] holds the elements already passed, retained or not. *)
Fixpoint first_occurrences (key : value -> value) (earlier elements : list value)
    : list value :=
  match elements with
  | [] => []
  | x :: rest =>
      if existsb (fun y => SameValueZero (key y) (key x)) earlier
      then first_occurrences key (earlier ++ [x]) rest
      else x :: first_occurrences key (earlier ++ [x]) rest
  end.

(** [uniqueKeys] holds a key exactly when an element already passed has
    that key. *)
Definition holds_keys_of (keySelector : option (Selector value))
    (uniqueKeys : JsSet.t) (earlier : list value) : Prop :=
  forall k, JsSet.has uniqueKeys k
            = existsb (fun y => SameValueZero (distinct_key keySelector y) k) earlier.

(** [new Queryable([1, 2, 2, 3, 1])] in an empty heap. *)
Definition one_two_two_three_one : heap :=
  [ArrayCell (numbers [1; 2; 2; 3; 1]%float); QueryableCell 0].

(** ** [groupBy], as the specification words it *)

(** The elements of the group [key], in source order. *)
Definition group_of (NumberToString : float -> string) (keySelector : Selector GroupKey)
    (key : string) (elements : list value) : list value :=
  List.filter
    (fun x => String.eqb (ToPropertyKey NumberToString (keySelector x)) key)
    elements.

(** A group exists once it has an element. *)
Definition nonempty (group : list value) : option (list value) :=
  match group with
  | [] => None
  | _ => Some group
  end.

(** [groups] is the grouping of [elements]: the group of each key holds
    the elements of that key in source order. *)
Definition groups_of (NumberToString : float -> string) (keySelector : Selector GroupKey)
    (groups : PlainObject.t) (elements : list value) : Prop :=
  forall key,
    groups !! key = nonempty (group_of NumberToString keySelector key elements).

(** The key of an element does not name a property that every object
    inherits. *)
Definition plain_key (NumberToString : float -> string) (keySelector : Selector GroupKey)
    (x : value) : Prop :=
  PlainObject.inherited (ToPropertyKey NumberToString (keySelector x)) = false.

(** [person => person.name], for names that are strings. *)
Definition by_name (v : value) : GroupKey :=
  match get_property "name" v with
  | VString s => KString s
  | VNumber n => KNumber n
  | _ => KString "undefined"
  end.

(** [new Queryable([{name: 'constructor'}])] in an empty heap. *)
Definition named_constructor : heap :=
  [ArrayCell [VObject 1 [("name", VString "constructor")]%string]; QueryableCell 0].

(** The people of the test suite, by name and age. *)
Definition person (id : nat) (name : string) (age : float) : value :=
  VObject id [("id", VNumber (Number_of_length id)); ("name", VString name);
              ("age", VNumber age)]%string.

Definition people : heap :=
  [ArrayCell [person 1 "Alice" 30; person 2 "Bob" 25;
              person 3 "Charlie" 35; person 4 "Alice" 28];
   QueryableCell 0].

(** All the elements of all the groups, group after group. *)
Definition members (groups : PlainObject.t) : list value :=
  concat (List.map snd (map_to_list groups)).

(** * Properties *)

Lemma wraps_lookup h this elements :
  wraps h this elements <->
  exists collection,
    h !! this = Some (QueryableCell collection) /\
    h !! collection = Some (ArrayCell elements).
Proof.
  unfold wraps, contents, toArray, get_collection, read_array, bind. split.
  - destruct (h !! this) as [[|collection]|] eqn:E; try discriminate.
    destruct (h !! collection) as [[l|]|] eqn:E'; try discriminate.
    intros [= ->]. eauto.
  - intros (collection & -> & ->). reflexivity.
Qed.

Lemma wraps_fresh h arr elements :
  h !! arr = Some (ArrayCell elements) ->
  forall tail, wraps (h ++ QueryableCell arr :: tail) (length h) elements.
Proof.
  intros Harr tail. apply wraps_lookup. exists arr. split.
  - rewrite lookup_app_r by lia. now rewrite Nat.sub_diag.
  - apply lookup_app_l_Some, Harr.
Qed.

Lemma wraps_extend h this elements extra :
  wraps h this elements -> wraps (h ++ extra) this elements.
Proof.
  rewrite !wraps_lookup. intros (c & H1 & H2). exists c.
  split; now apply lookup_app_l_Some.
Qed.

Lemma wraps_wrapped h elements :
  wraps (wrapped h elements) (S (length h)) elements.
Proof.
  unfold wrapped. change (h ++ [ArrayCell elements; QueryableCell (length h)])
    with (h ++ [ArrayCell elements] ++ [QueryableCell (length h)]).
  rewrite app_assoc.
  replace (S (length h)) with (length (h ++ [ArrayCell elements]))
    by (rewrite length_app; simpl; lia).
  apply wraps_fresh. rewrite lookup_app_r by lia. now rewrite Nat.sub_diag.
Qed.

Lemma alloc_two (h : heap) c1 c2 :
  (h ++ [c1]) ++ [c2] = h ++ [c1; c2].
Proof. now rewrite <- app_assoc. Qed.

Lemma length_snoc (h : heap) c : length (h ++ [c]) = S (length h).
Proof. rewrite length_app. simpl. lia. Qed.

Lemma lookup_snoc (h : heap) c : (h ++ [c]) !! length h = Some c.
Proof. rewrite lookup_app_r by lia. now rewrite Nat.sub_diag. Qed.

Lemma insert_snoc (h : heap) c c' : <[length h := c']> (h ++ [c]) = h ++ [c'].
Proof.
  rewrite insert_app_r_alt by lia. now rewrite Nat.sub_diag.
Qed.

Section Run.

Variable lessThan : value -> value -> bool.

Variables (h : heap) (this collection : loc) (elements : list value).
Hypothesis Hthis : h !! this = Some (QueryableCell collection).
Hypothesis Hcollection : h !! collection = Some (ArrayCell elements).

Ltac run :=
  repeat first
    [ progress unfold bind, get_collection, read_array, write_array, alloc, ret,
        new_Queryable, ArrayRef.map, ArrayRef.filter, ArrayRef.slice,
        ArrayRef.spread, ArrayRef.sort, ArrayRef.reverse, ArrayRef.find,
        ArrayRef.get, ArrayRef.length, ArrayRef.reduce, ArrayRef.forEach,
        ArrayRef.literal, ArrayRef.some, ArrayRef.every
    | rewrite Hthis | rewrite Hcollection
    | rewrite (lookup_app_l_Some _ _ _ _ Hthis)
    | rewrite (lookup_app_l_Some _ _ _ _ Hcollection)
    | rewrite lookup_snoc | rewrite insert_snoc | rewrite length_snoc
    | rewrite alloc_two ];
  try reflexivity.

Lemma select_run selector :
  select this selector h
  = Normal (S (length h)) (wrapped h (List.map selector elements)).
Proof. unfold select, wrapped. run. Qed.

Lemma where_run predicate :
  where_ this predicate h
  = Normal (S (length h)) (wrapped h (List.filter predicate elements)).
Proof. unfold where_, wrapped. run. Qed.

Lemma orderBy_run keySelector :
  orderBy lessThan this keySelector h
  = Normal (S (length h))
      (wrapped h (Array.sort (ascending lessThan keySelector) elements)).
Proof. unfold orderBy, wrapped. run. Qed.

Lemma orderByDescending_run keySelector :
  orderByDescending lessThan this keySelector h
  = Normal (S (length h))
      (wrapped h (Array.sort (descending lessThan keySelector) elements)).
Proof. unfold orderByDescending, wrapped. run. Qed.

Lemma distinct_run keySelector :
  distinct this keySelector h
  = Normal (S (length h))
      (wrapped h (snd (fold_left (distinct_callback keySelector) elements
                         (JsSet.empty, [])))).
Proof. unfold distinct, wrapped. run. Qed.

Lemma take_run count :
  take this count h
  = Normal (S (length h))
      (wrapped h (Array.slice (Integer 0) (Some (ToIntegerOrInfinity count)) elements)).
Proof. unfold take, wrapped. run. Qed.

Lemma skip_run count :
  skip this count h
  = Normal (S (length h))
      (wrapped h (Array.slice (ToIntegerOrInfinity count) None elements)).
Proof. unfold skip, wrapped. run. Qed.

Lemma sum_run selector :
  sum this selector h
  = Normal (fold_left (fun acc item => PrimFloat.add acc (selector item))
              elements PrimFloat.zero) h.
Proof. unfold sum. run. Qed.

Lemma average_run selector :
  average this selector h
  = Normal (PrimFloat.div
              (fold_left (fun acc item => PrimFloat.add acc (selector item))
                 elements PrimFloat.zero)
              (Number_of_length (length elements))) h.
Proof. unfold average. unfold bind at 1. rewrite sum_run. run. Qed.

Lemma first_run predicate :
  first this predicate h
  = Normal (match predicate with
            | Some p => Array.find p elements
            | None => Array.get elements 0
            end) h.
Proof. unfold first. destruct predicate; run. Qed.

Lemma last_run predicate :
  last this predicate h
  = Normal (match predicate with
            | Some p => Array.find p (rev elements)
            | None => Array.get elements (Z.of_nat (length elements) - 1)
            end)
      (match predicate with
       | Some _ => h ++ [ArrayCell (rev elements)]
       | None => h
       end).
Proof. unfold last. destruct predicate; run. Qed.

Lemma firstOrDefault_run predicate defaultValue :
  firstOrDefault this predicate defaultValue h
  = Normal (let item := match predicate with
                        | Some p => Array.find p elements
                        | None => Array.get elements 0
                        end in
            if negb (is_undefined item) then item
            else default_parameter defaultValue null) h.
Proof. unfold firstOrDefault. destruct predicate; run. Qed.

Lemma lastOrDefault_run predicate defaultValue :
  lastOrDefault this predicate defaultValue h
  = Normal (let item := match predicate with
                        | Some p => Array.find p (rev elements)
                        | None => Array.get elements (Z.of_nat (length elements) - 1)
                        end in
            if negb (is_undefined item) then item
            else default_parameter defaultValue null)
      (match predicate with
       | Some _ => h ++ [ArrayCell (rev elements)]
       | None => h
       end).
Proof. unfold lastOrDefault. destruct predicate; run. Qed.

End Run.

(** ** Results as wrappers *)

Lemma yields_wrapped (m : M loc) h elements :
  m h = Normal (S (length h)) (wrapped h elements) -> yields m h elements.
Proof.
  intros E. exists (S (length h)), (wrapped h elements).
  split; [exact E | apply wraps_wrapped].
Qed.

Lemma yields_inj (m : M loc) h l1 l2 :
  yields m h l1 -> yields m h l2 -> l1 = l2.
Proof.
  intros (q & h' & E & W) (q2 & h2 & E2 & W2).
  rewrite E in E2. injection E2 as <- <-.
  unfold wraps in *. rewrite W in W2. now injection W2.
Qed.

(** ** Identity operators *)

(** C9: [where] with the constantly true predicate and [select] with the
    identity selector each return a wrapper with the same elements, in
    the same order, as the source. *)
Theorem where_true_select_identity h this elements :
  wraps h this elements ->
  yields (where_ this (fun _ => true)) h elements /\
  yields (select this (fun x => x)) h elements.
Proof.
  intros W. apply wraps_lookup in W as (c & Hthis & Hc). split.
  - apply yields_wrapped. rewrite (where_run h this c elements Hthis Hc).
    f_equal. f_equal. induction elements as [|x l IH] in |- *; simpl; congruence.
  - apply yields_wrapped. rewrite (select_run h this c elements Hthis Hc).
    now rewrite List.map_id.
Qed.

Lemma where_true_select_identity_witness :
  wraps one_two_three 1%nat (numbers [1; 2; 3]%float) /\
  yields (where_ 1%nat (fun _ => true)) one_two_three (numbers [1; 2; 3]%float) /\
  yields (select 1%nat (fun x => x)) one_two_three (numbers [1; 2; 3]%float).
Proof.
  split; [reflexivity|].
  apply (where_true_select_identity one_two_three 1%nat). reflexivity.
Defined.

(** ** Operators do not touch the source *)

Lemma wrapped_frame h elements' :
  (forall i c, h !! i = Some c -> wrapped h elements' !! i = Some c) /\
  h !! S (length h) = None /\
  h !! length h = None /\
  toArray (S (length h)) (wrapped h elements')
  = Normal (length h) (wrapped h elements').
Proof.
  unfold wrapped. repeat split.
  - intros i c Hi. now apply lookup_app_l_Some.
  - apply lookup_ge_None. lia.
  - apply lookup_ge_None. lia.
  - unfold toArray, get_collection.
    rewrite lookup_app_r by lia.
    now replace (S (length h) - length h)%nat with 1%nat by lia.
Qed.

Lemma apply_operator_run lessThan op h this collection elements :
  h !! this = Some (QueryableCell collection) ->
  h !! collection = Some (ArrayCell elements) ->
  exists elements',
    apply_operator lessThan op this h
    = Normal (S (length h)) (wrapped h elements').
Proof.
  intros Hthis Hc. destruct op; simpl; eexists.
  - apply (select_run h this collection elements Hthis Hc).
  - apply (where_run h this collection elements Hthis Hc).
  - apply (orderBy_run lessThan h this collection elements Hthis Hc).
  - apply (orderByDescending_run lessThan h this collection elements Hthis Hc).
  - apply (distinct_run h this collection elements Hthis Hc).
  - apply (take_run h this collection elements Hthis Hc).
  - apply (skip_run h this collection elements Hthis Hc).
Qed.



(** ** Counts of [take] and [skip] *)

Lemma slice_from_start k l :
  Array.slice (Integer 0) (Some k) l = firstn (Array.relativeIndex (length l) k) l.
Proof.
  unfold Array.slice. simpl. rewrite Z.min_l by lia. simpl.
  now rewrite Nat.sub_0_r.
Qed.

Lemma slice_to_end k l :
  Array.slice k None l = skipn (Array.relativeIndex (length l) k) l.
Proof.
  unfold Array.slice. apply firstn_all2. rewrite length_skipn. lia.
Qed.

Lemma truncate_negative m e : truncate true m e <= 0.
Proof.
  unfold truncate. destruct (0 <=? e) eqn:E.
  - apply Z.leb_le in E. pose proof (Z.pow_nonneg 2 e). nia.
  - apply Z.leb_gt in E.
    assert (0 <= Z.pos m / 2 ^ (- e)) by (apply Z.div_pos; [lia | apply Z.pow_pos_nonneg; lia]).
    lia.
Qed.

(** The integer part of a negative count is not positive. *)
Lemma negative_count count :
  PrimFloat.ltb count 0 = true ->
  match ToIntegerOrInfinity count with
  | NegInfinity => True
  | Integer k => k <= 0
  | PosInfinity => False
  end.
Proof.
  rewrite FloatAxioms.ltb_spec. unfold ToIntegerOrInfinity.
  change (Prim2SF 0) with (S754_zero false).
  destruct (Prim2SF count) as [s| [|] | |[|] m e]; simpl; try discriminate;
    try lia; trivial.
  intros _. apply truncate_negative.
Qed.

(** What [take] and [skip] do with a count outside the sequence.  With
    [k] the count truncated toward zero: for [k <= -1] [take] returns
    the first [max 0 (length + k)] elements and [skip] the last
    [min length (-k)]; for [k = 0] and for [-Infinity], [take] returns
    no element and [skip] all of them; for [k >= length] and for
    [+Infinity], [take] returns all elements and [skip] none. *)
Theorem take_skip_counts h this elements count :
  wraps h this elements ->
  match ToIntegerOrInfinity count with
  | NegInfinity =>
      yields (take this count) h [] /\ yields (skip this count) h elements
  | Integer k =>
      (k < 0 ->
         yields (take this count) h (firstn (length elements - Z.to_nat (- k)) elements) /\
         yields (skip this count) h (skipn (length elements - Z.to_nat (- k)) elements)) /\
      (k = 0 ->
         yields (take this count) h [] /\ yields (skip this count) h elements) /\
      (Z.of_nat (length elements) <= k ->
         yields (take this count) h elements /\ yields (skip this count) h [])
  | PosInfinity =>
      yields (take this count) h elements /\ yields (skip this count) h []
  end.
Proof.
  intros W. apply wraps_lookup in W as (c & Hthis & Hc).
  assert (T : yields (take this count) h
                (firstn (Array.relativeIndex (length elements) (ToIntegerOrInfinity count))
                   elements)).
  { apply yields_wrapped. rewrite (take_run h this c elements Hthis Hc).
    now rewrite slice_from_start. }
  assert (S : yields (skip this count) h
                (skipn (Array.relativeIndex (length elements) (ToIntegerOrInfinity count))
                   elements)).
  { apply yields_wrapped. rewrite (skip_run h this c elements Hthis Hc).
    now rewrite slice_to_end. }
  destruct (ToIntegerOrInfinity count) as [|k|]; simpl in T, S.
  - now split.
  - split; [|split]; intros Hk; split.
    + destruct (k <? 0) eqn:E; [|apply Z.ltb_ge in E; lia].
      replace (length elements - Z.to_nat (- k))%nat
        with (Z.to_nat (Z.max (Z.of_nat (length elements) + k) 0)) by lia.
      exact T.
    + destruct (k <? 0) eqn:E; [|apply Z.ltb_ge in E; lia].
      replace (length elements - Z.to_nat (- k))%nat
        with (Z.to_nat (Z.max (Z.of_nat (length elements) + k) 0)) by lia.
      exact S.
    + subst k. simpl in T. rewrite Z.min_l in T by lia. exact T.
    + subst k. simpl in S. rewrite Z.min_l in S by lia. exact S.
    + destruct (k <? 0) eqn:E; [apply Z.ltb_lt in E; lia|].
      rewrite Z.min_r, Nat2Z.id in T by lia. now rewrite firstn_all in T.
    + destruct (k <? 0) eqn:E; [apply Z.ltb_lt in E; lia|].
      rewrite Z.min_r, Nat2Z.id in S by lia. now rewrite skipn_all in S.
  - split; [now rewrite firstn_all in T | now rewrite skipn_all in S].
Qed.

Lemma take_skip_counts_witness :
  wraps one_two_three 1%nat (numbers [1; 2; 3]%float) /\
  yields (take 1%nat (-1)%float) one_two_three (numbers [1; 2]%float) /\
  yields (skip 1%nat (-1)%float) one_two_three (numbers [3]%float).
Proof.
  split; [reflexivity|].
  assert (W : wraps one_two_three 1%nat (numbers [1; 2; 3]%float)) by reflexivity.
  pose proof (take_skip_counts one_two_three 1%nat _ (-1)%float W) as H.
  change (ToIntegerOrInfinity (-1)) with (Integer (-1)) in H.
  destruct H as (H & _). apply H. lia.
Defined.

(** So a negative count is not clamped to 0. *)
Lemma take_skip_negative_count_not_clamped :
  ~ clamps_count one_two_three 1%nat (numbers [1; 2; 3]%float) (-1)%float.
Proof.
  intros (Hneg & _). destruct (Hneg eq_refl) as ((q & h' & E & W) & _).
  vm_compute in E. injection E as <- <-. vm_compute in W. discriminate.
Qed.

(** C1: the code breaks the claim on a negative count.  On
    [[1, 2, 3]], [take(-1)] returns [[1, 2]] where the claim has an
    empty wrapper, and [skip(-1)] returns [[3]] where the claim has all
    the elements: [slice] counts a negative index from the end, and
    neither method guards against it. *)
Theorem take_skip_negative_count :
  yields (take 1%nat (-1)%float) one_two_three (numbers [1; 2]%float) /\
  yields (skip 1%nat (-1)%float) one_two_three (numbers [3]%float).
Proof. split; apply yields_wrapped; reflexivity. Qed.

(** ** [sum] and [average] *)

Lemma nan_is_not_zero : PrimFloat.nan <> PrimFloat.zero.
Proof.
  intros E.
  assert (H : PrimFloat.is_nan PrimFloat.nan = PrimFloat.is_nan PrimFloat.zero)
    by now rewrite E.
  vm_compute in H. discriminate.
Qed.

Example sum_of_ages :
  sum 1%nat to_number ages = Normal 118%float ages.
Proof. reflexivity. Qed.

Example average_of_ages :
  average 1%nat to_number ages = Normal 29.5%float ages.
Proof. reflexivity. Qed.

(** C6: [average] returns what [sum] returns divided by the length.
    On the empty sequence that is [0 / 0], which is NaN: it is not the
    number 0, and [=== 0] is false for it. *)
Theorem average_is_sum_over_length h this elements selector :
  wraps h this elements ->
  exists total,
    sum this selector h = Normal total h /\
    average this selector h
    = Normal (PrimFloat.div total (Number_of_length (length elements))) h /\
    (elements = [] ->
       total = PrimFloat.zero /\
       average this selector h = Normal PrimFloat.nan h /\
       PrimFloat.nan <> PrimFloat.zero /\
       PrimFloat.eqb PrimFloat.nan PrimFloat.zero = false).
Proof.
  intros W. apply wraps_lookup in W as (c & Hthis & Hc).
  eexists. split; [apply (sum_run h this c elements Hthis Hc)|].
  split; [apply (average_run h this c elements Hthis Hc)|].
  intros ->. rewrite (average_run h this c [] Hthis Hc).
  repeat split; auto using nan_is_not_zero.
Qed.

Lemma average_is_sum_over_length_witness :
  wraps empty_array 1%nat [] /\
  exists total,
    sum 1%nat to_number empty_array = Normal total empty_array /\
    average 1%nat to_number empty_array
    = Normal (PrimFloat.div total (Number_of_length 0)) empty_array /\
    (@nil value = [] ->
       total = PrimFloat.zero /\
       average 1%nat to_number empty_array = Normal PrimFloat.nan empty_array /\
       PrimFloat.nan <> PrimFloat.zero /\
       PrimFloat.eqb PrimFloat.nan PrimFloat.zero = false).
Proof.
  split; [reflexivity|].
  apply (average_is_sum_over_length empty_array 1%nat [] to_number). reflexivity.
Defined.

(** ** [first] and [last] *)

Lemma find_no_match p l :
  Forall (fun x => p x = false) l -> Array.find p l = undefined.
Proof.
  induction 1 as [|x l Hx _ IH]; simpl; [reflexivity|]. now rewrite Hx.
Qed.

Lemma find_undefined p l :
  Forall (fun x => x <> undefined) l ->
  Array.find p l = undefined ->
  Forall (fun x => p x = false) l.
Proof.
  induction 1 as [|x l Hx _ IH]; simpl; [constructor|].
  destruct (p x) eqn:E; [congruence|]. intros F. constructor; auto.
Qed.

Lemma find_first_match p before x after :
  Forall (fun y => p y = false) before -> p x = true ->
  Array.find p (before ++ x :: after) = x.
Proof.
  induction 1 as [|y l Hy _ IH]; simpl; intros Hx.
  - now rewrite Hx.
  - rewrite Hy. auto.
Qed.

Lemma get_first l : Array.get l 0 = Array.find (fun _ => true) l.
Proof. now destruct l. Qed.

Lemma get_last l :
  Array.get l (Z.of_nat (length l) - 1) = Array.find (fun _ => true) (rev l).
Proof.
  destruct l as [|x l] using rev_ind; [reflexivity|].
  rewrite rev_app_distr, length_app. simpl. unfold Array.get.
  destruct (_ <? 0) eqn:E; [apply Z.ltb_lt in E; lia|].
  replace (Z.to_nat (Z.of_nat (length l + 1) - 1)) with (length l) by lia.
  rewrite app_nth2 by lia. now rewrite Nat.sub_diag.
Qed.

(** What [first] and [last] return, in one form for both ways of
    calling them. *)
Lemma first_value h this elements predicate :
  wraps h this elements ->
  first this predicate h = Normal (Array.find (accepts predicate) elements) h.
Proof.
  intros W. apply wraps_lookup in W as (c & Hthis & Hc).
  rewrite (first_run h this c elements Hthis Hc).
  destruct predicate; simpl; [reflexivity | now rewrite get_first].
Qed.

Lemma last_value h this elements predicate :
  wraps h this elements ->
  exists h',
    last this predicate h
    = Normal (Array.find (accepts predicate) (rev elements)) h'.
Proof.
  intros W. apply wraps_lookup in W as (c & Hthis & Hc).
  rewrite (last_run h this c elements Hthis Hc).
  destruct predicate; simpl; eexists; [reflexivity | now rewrite get_last].
Qed.

(** C2 (amended): [first] and [last] return [undefined] when
    the sequence is empty or no element satisfies the predicate, and do
    not throw; when no element of the sequence is itself [undefined],
    [undefined] is returned only then. *)
Theorem first_last_absence h this elements predicate :
  wraps h this elements ->
  (exists r h',
     first this predicate h = Normal r h' /\
     (no_match predicate elements -> r = undefined) /\
     (Forall (fun x => x <> undefined) elements ->
      r = undefined -> no_match predicate elements)) /\
  (exists r h',
     last this predicate h = Normal r h' /\
     (no_match predicate elements -> r = undefined) /\
     (Forall (fun x => x <> undefined) elements ->
      r = undefined -> no_match predicate elements)).
Proof.
  intros W. split.
  - eexists _, _. split; [apply (first_value _ _ _ _ W)|]. split.
    + apply find_no_match.
    + apply find_undefined.
  - destruct (last_value _ _ _ predicate W) as (h' & E).
    eexists _, _. split; [exact E|]. split.
    + intros N. apply find_no_match. now apply Forall_rev.
    + intros D U. apply Forall_rev in D.
      pose proof (find_undefined _ _ D U) as F.
      apply Forall_rev in F. now rewrite rev_involutive in F.
Qed.

Lemma first_last_absence_witness :
  wraps one_two_three 1%nat (numbers [1; 2; 3]%float) /\
  exists r h',
    first 1%nat (Some (fun _ => false)) one_two_three = Normal r h' /\
    (no_match (Some (fun _ => false)) (numbers [1; 2; 3]%float) -> r = undefined).
Proof.
  split; [reflexivity|].
  destruct (first_last_absence one_two_three 1%nat (numbers [1; 2; 3]%float)
              (Some (fun _ => false)) eq_refl) as ((r & h' & E & N & _) & _).
  exists r, h'. split; [exact E | exact N].
Defined.

(** C2 as stated fails on the code: on [[undefined, 1]] with a predicate that
    accepts everything, [first] returns [undefined] although an element
    matched. *)
Lemma first_undefined_element_matched :
  ~ signals_absence (first 1%nat (Some (fun _ => true))) undefined_and_one
      (Some (fun _ => true)) [undefined; VNumber 1].
Proof.
  intros (r & h' & E & _ & A). vm_compute in E. injection E as <- _.
  specialize (A eq_refl). inversion A. discriminate.
Qed.

(** ** [firstOrDefault] and [lastOrDefault] *)

Lemma default_parameter_supplied arg dflt :
  arg <> undefined -> default_parameter arg dflt = arg.
Proof. unfold default_parameter. destruct arg; simpl; congruence. Qed.

Lemma firstOrDefault_value h this elements predicate defaultValue :
  wraps h this elements ->
  firstOrDefault this predicate defaultValue h
  = Normal (let item := Array.find (accepts predicate) elements in
            if negb (is_undefined item) then item
            else default_parameter defaultValue null) h.
Proof.
  intros W. apply wraps_lookup in W as (c & Hthis & Hc).
  rewrite (firstOrDefault_run h this c elements Hthis Hc).
  destruct predicate; simpl; [reflexivity | now rewrite get_first].
Qed.

Lemma lastOrDefault_value h this elements predicate defaultValue :
  wraps h this elements ->
  exists h',
    lastOrDefault this predicate defaultValue h
    = Normal (let item := Array.find (accepts predicate) (rev elements) in
              if negb (is_undefined item) then item
              else default_parameter defaultValue null) h'.
Proof.
  intros W. apply wraps_lookup in W as (c & Hthis & Hc).
  rewrite (lastOrDefault_run h this c elements Hthis Hc).
  destruct predicate; simpl; eexists; [reflexivity | now rewrite get_last].
Qed.

(** C10: when the first element that satisfies the predicate is an
    [undefined] element, [firstOrDefault] returns the default value
    (the argument given, [null] when none is given) and not the
    element; likewise [lastOrDefault] when the last such element is
    [undefined]. *)
Theorem orDefault_on_undefined_match h this elements predicate defaultValue
    before after :
  wraps h this elements ->
  elements = before ++ undefined :: after ->
  accepts predicate undefined = true ->
  (no_match predicate before ->
   exists r h',
     firstOrDefault this predicate defaultValue h = Normal r h' /\
     r = default_parameter defaultValue null /\
     (defaultValue <> undefined -> r = defaultValue)) /\
  (no_match predicate after ->
   exists r h',
     lastOrDefault this predicate defaultValue h = Normal r h' /\
     r = default_parameter defaultValue null /\
     (defaultValue <> undefined -> r = defaultValue)).
Proof.
  intros W -> Hu. split; intros N.
  - eexists _, _. split; [apply (firstOrDefault_value _ _ _ _ _ W)|].
    rewrite (find_first_match _ _ _ _ N Hu). simpl.
    split; [reflexivity | apply default_parameter_supplied].
  - destruct (lastOrDefault_value _ _ _ predicate defaultValue W) as (h' & E).
    eexists _, _. split; [exact E|].
    rewrite rev_app_distr. simpl. rewrite <- app_assoc. simpl.
    apply Forall_rev in N.
    rewrite (find_first_match _ _ _ _ N Hu). simpl.
    split; [reflexivity | apply default_parameter_supplied].
Qed.

Lemma orDefault_on_undefined_match_witness :
  wraps undefined_and_one 1%nat [undefined; VNumber 1] /\
  exists r h',
    firstOrDefault 1%nat (Some (fun _ => true)) (VNumber 7) undefined_and_one
    = Normal r h' /\
    r = VNumber 7.
Proof.
  split; [reflexivity|].
  destruct (orDefault_on_undefined_match undefined_and_one 1%nat
              [undefined; VNumber 1] (Some (fun _ => true)) (VNumber 7)
              [] [VNumber 1] eq_refl eq_refl eq_refl) as (F & _).
  destruct (F (List.Forall_nil _)) as (r & h' & E & _ & D).
  exists r, h'. split; [exact E | apply D; discriminate].
Defined.

(** ** The sort *)

Section Sort.

Variable comparefn : value -> value -> Z.

Abbreviation after := (sort_after comparefn).
Abbreviation level := (sort_level comparefn).

Lemma sort_insert_permutation x sorted :
  Permutation (Array.sort_insert comparefn x sorted) (x :: sorted).
Proof.
  induction sorted as [|y rest IH]; simpl; [reflexivity|].
  destruct (0 <? _); [|reflexivity].
  rewrite IH. apply perm_swap.
Qed.

Lemma sort_permutation arr : Permutation (Array.sort comparefn arr) arr.
Proof.
  induction arr as [|x rest IH]; simpl; [reflexivity|].
  rewrite sort_insert_permutation. now constructor.
Qed.

Lemma sort_In arr x : In x (Array.sort comparefn arr) <-> In x arr.
Proof.
  split; apply Permutation_in;
    [apply sort_permutation | symmetry; apply sort_permutation].
Qed.

(** The comparator is consistent on the values [dom]. *)
Variable dom : list value.
Hypothesis after_asym :
  forall x y, In x dom -> In y dom -> after x y = true -> after y x = false.
Hypothesis after_negtrans :
  forall x y z, In x dom -> In y dom -> In z dom ->
    after x y = false -> after y z = false -> after x z = false.

Lemma after_irrefl x : In x dom -> after x x = false.
Proof.
  intros Hx. destruct (after x x) eqn:E; [|reflexivity].
  now rewrite (after_asym x x Hx Hx E) in E.
Qed.

Lemma level_refl x : In x dom -> level x x = true.
Proof. intros Hx. unfold sort_level. now rewrite after_irrefl. Qed.

Lemma sort_insert_sorted x sorted :
  In x dom -> incl sorted dom ->
  StronglySorted (fun a b => after a b = false) sorted ->
  StronglySorted (fun a b => after a b = false) (Array.sort_insert comparefn x sorted).
Proof.
  intros Hx Hdom Hs. induction Hs as [|y rest Hrest IH Hy]; simpl.
  - repeat constructor.
  - assert (Hyd : In y dom) by (apply Hdom; now left).
    assert (Hrd : incl rest dom) by (intros z Hz; apply Hdom; now right).
    fold (sort_after comparefn x y). destruct (after x y) eqn:E.
    + constructor; [now apply IH|].
      apply List.Forall_forall. intros z Hz.
      apply (Permutation_in _ (sort_insert_permutation x rest)) in Hz.
      destruct Hz as [<-|Hz]; [now apply after_asym|].
      rewrite List.Forall_forall in Hy. auto.
    + constructor; [now constructor|].
      constructor; [exact E|].
      apply List.Forall_forall. intros z Hz. rewrite List.Forall_forall in Hy.
      apply (after_negtrans x y z); auto.
Qed.

Lemma sort_sorted arr :
  incl arr dom ->
  StronglySorted (fun a b => after a b = false) (Array.sort comparefn arr).
Proof.
  induction arr as [|x rest IH]; simpl; intros Hdom; [constructor|].
  apply sort_insert_sorted.
  - apply Hdom. now left.
  - intros z Hz. apply Hdom. right. now apply sort_In.
  - apply IH. intros z Hz. apply Hdom. now right.
Qed.

Lemma sort_insert_stable a x sorted :
  In a dom -> In x dom -> incl sorted dom ->
  List.filter (level a) (Array.sort_insert comparefn x sorted)
  = List.filter (level a) (x :: sorted).
Proof.
  intros Ha Hx. induction sorted as [|y rest IH]; intros Hdom; [reflexivity|].
  assert (Hyd : In y dom) by (apply Hdom; now left).
  assert (Hrd : incl rest dom) by (intros z Hz; apply Hdom; now right).
  cbn [Array.sort_insert]. fold (sort_after comparefn x y).
  destruct (after x y) eqn:E; [|reflexivity].
  cbn [List.filter]. rewrite (IH Hrd). cbn [List.filter].
  destruct (level a y) eqn:Ey; [|reflexivity].
  destruct (level a x) eqn:Ex; [|reflexivity].
  exfalso. unfold sort_level in Ex, Ey.
  apply andb_prop in Ex as (_ & Ex). apply andb_prop in Ey as (Ey & _).
  apply negb_true_iff in Ex, Ey.
  now rewrite (after_negtrans x a y Hx Ha Hyd Ex Ey) in E.
Qed.

Lemma sort_stable arr :
  incl arr dom -> stable level (Array.sort comparefn arr) arr.
Proof.
  intros Hdom a Ha. apply Hdom in Ha. clear after_asym.
  induction arr as [|x rest IH]; [reflexivity|].
  cbn [Array.sort]. rewrite sort_insert_stable; trivial.
  - cbn [List.filter]. rewrite IH; [reflexivity|].
    intros z Hz. apply Hdom. now right.
  - apply Hdom. now left.
  - intros z Hz. apply Hdom. right. now apply sort_In.
Qed.

(** Two sorted arrangements of the same elements that keep every class
    in the same order are equal. *)
Lemma sorted_stable_unique r1 r2 :
  incl r1 dom ->
  Permutation r1 r2 ->
  StronglySorted (fun a b => after a b = false) r1 ->
  StronglySorted (fun a b => after a b = false) r2 ->
  stable level r1 r2 ->
  r1 = r2.
Proof.
  revert r2. induction r1 as [|a r1 IH]; intros r2 Hdom Hp S1 S2 Hst.
  - now apply Permutation_nil in Hp.
  - destruct r2 as [|b r2]; [now apply Permutation_sym, Permutation_nil in Hp|].
    assert (Ha : In a dom) by (apply Hdom; now left).
    assert (Hb1 : In b (a :: r1)) by (apply (Permutation_in b (Permutation_sym Hp)); now left).
    assert (Hb : In b dom) by now apply Hdom.
    assert (Ha2 : In a (b :: r2)) by (apply (Permutation_in a Hp); now left).
    inversion S1 as [|? ? S1' F1]; subst. inversion S2 as [|? ? S2' F2]; subst.
    rewrite List.Forall_forall in F1, F2.
    assert (Eab : after a b = false).
    { destruct Hb1 as [<-|Hb1]; [now apply after_irrefl | auto]. }
    assert (Eba : after b a = false).
    { destruct Ha2 as [<-|Ha2]; [now apply after_irrefl | auto]. }
    assert (Hab : a = b).
    { pose proof (Hst b (or_introl eq_refl)) as H. cbn [List.filter] in H.
      rewrite (level_refl b Hb) in H. unfold sort_level at 1 in H.
      rewrite Eab, Eba in H. simpl in H. now injection H. }
    subst b. f_equal. apply IH; trivial.
    + intros z Hz. apply Hdom. now right.
    + now apply Permutation_cons_inv in Hp.
    + intros c Hc. pose proof (Hst c (or_intror Hc)) as H.
      cbn [List.filter] in H. destruct (level c a); [now injection H | exact H].
Qed.

(** Any stable sort returns what the model returns. *)
Lemma sort_unique arr result :
  incl arr dom ->
  Permutation result arr ->
  StronglySorted (fun a b => after a b = false) result ->
  stable level result arr ->
  result = Array.sort comparefn arr.
Proof.
  intros Hdom Hp Hs Hst.
  apply sorted_stable_unique; trivial.
  - intros z Hz. apply Hdom. now apply (Permutation_in z Hp).
  - rewrite Hp. symmetry. apply sort_permutation.
  - now apply sort_sorted.
  - intros a Ha. apply (proj1 (sort_In arr a)) in Ha. rewrite (Hst a Ha).
    symmetry. now apply sort_stable.
Qed.

End Sort.

(** ** The comparators of [orderBy] and [orderByDescending] *)

Lemma strict_weak_order_spec lessThan keys :
  strict_weak_order lessThan keys = true ->
  (forall a b, In a keys -> In b keys ->
     lessThan a b = true -> lessThan b a = false) /\
  (forall a b c, In a keys -> In b keys -> In c keys ->
     lessThan a b = false -> lessThan b c = false -> lessThan a c = false).
Proof.
  unfold strict_weak_order. rewrite forallb_forall. intros H. split.
  - intros a b Ha Hb E. specialize (H a Ha). rewrite forallb_forall in H.
    specialize (H b Hb). apply andb_prop in H as (H & _).
    rewrite E in H. now apply negb_true_iff in H.
  - intros a b c Ha Hb Hc E1 E2. specialize (H a Ha). rewrite forallb_forall in H.
    specialize (H b Hb). apply andb_prop in H as (_ & H).
    rewrite forallb_forall in H. specialize (H c Hc).
    rewrite E1, E2 in H. now apply negb_true_iff in H.
Qed.

Lemma strict_weak_order_flip lessThan keys :
  strict_weak_order lessThan keys = true ->
  strict_weak_order (flip_lessThan lessThan) keys = true.
Proof.
  intros H. apply strict_weak_order_spec in H as (Hasym & Hneg).
  unfold strict_weak_order, flip_lessThan.
  rewrite forallb_forall. intros a Ha. rewrite forallb_forall. intros b Hb.
  apply andb_true_intro. split.
  - destruct (lessThan b a) eqn:E; [|reflexivity]. simpl.
    now rewrite (Hasym b a Hb Ha E).
  - rewrite forallb_forall. intros c Hc.
    destruct (lessThan b a) eqn:E1; [reflexivity|].
    destruct (lessThan c b) eqn:E2; [reflexivity|]. simpl.
    now rewrite (Hneg c b a Hc Hb Ha E2 E1).
Qed.

Lemma descending_is_ascending_flipped lessThan keySelector a b :
  descending lessThan keySelector a b
  = ascending (flip_lessThan lessThan) keySelector a b.
Proof. reflexivity. Qed.

Lemma sort_descending lessThan keySelector l :
  Array.sort (descending lessThan keySelector) l
  = Array.sort (ascending (flip_lessThan lessThan) keySelector) l.
Proof. reflexivity. Qed.

Lemma tied_flip lessThan keySelector a b :
  tied (flip_lessThan lessThan) keySelector a b = tied lessThan keySelector a b.
Proof.
  unfold tied, flip_lessThan. destruct a, b; trivial; apply andb_comm.
Qed.

Lemma same_key_flip lessThan keySelector a b :
  same_key (flip_lessThan lessThan) keySelector a b = same_key lessThan keySelector a b.
Proof. apply andb_comm. Qed.

Lemma StronglySorted_weaken (R R' : value -> value -> Prop) l :
  (forall a b, In a l -> In b l -> R a b -> R' a b) ->
  StronglySorted R l -> StronglySorted R' l.
Proof.
  intros Himp Hs. induction Hs as [|a l Hl IH Ha]; constructor.
  - apply IH. intros x y Hx Hy. apply Himp; now right.
  - rewrite List.Forall_forall in *. intros x Hx.
    apply Himp; [now left | now right | auto].
Qed.

Lemma SortCompare_defined comparefn x y :
  is_undefined x = false -> is_undefined y = false ->
  Array.SortCompare comparefn x y = comparefn x y.
Proof. destruct x, y; simpl; congruence. Qed.

Section Ascending.

Variable lessThan : value -> value -> bool.
Variable keySelector : Selector value.
Variable elements : list value.
Hypothesis keys_ordered :
  strict_weak_order lessThan (List.map keySelector (defined elements)) = true.

Abbreviation key_of := keySelector.
Abbreviation after := (sort_after (ascending lessThan keySelector)).

Lemma key_in x :
  In x elements -> is_undefined x = false ->
  In (key_of x) (List.map keySelector (defined elements)).
Proof.
  intros Hx Hd. apply in_map. apply filter_In. split; [exact Hx|].
  now rewrite Hd.
Qed.

(** Among elements that are not [undefined], [x] goes after [y] exactly
    when the key of [y] is less than the key of [x]. *)
Lemma after_defined x y :
  In x elements -> In y elements ->
  is_undefined x = false -> is_undefined y = false ->
  after x y = lessThan (key_of y) (key_of x).
Proof.
  intros Hx Hy Dx Dy.
  destruct (strict_weak_order_spec _ _ keys_ordered) as (Hasym & _).
  pose proof (Hasym _ _ (key_in y Hy Dy) (key_in x Hx Dx)) as A.
  unfold sort_after. rewrite SortCompare_defined by trivial.
  unfold ascending, greaterThan.
  destruct (lessThan (key_of x) (key_of y)) eqn:E1,
           (lessThan (key_of y) (key_of x)) eqn:E2; try reflexivity.
  specialize (A eq_refl). congruence.
Qed.

Lemma after_undefined_l y : after undefined y = negb (is_undefined y).
Proof. now destruct y. Qed.

Lemma after_undefined_r x : after x undefined = false.
Proof. now destruct x. Qed.

Lemma is_undefined_true x : is_undefined x = true -> x = undefined.
Proof. now destruct x. Qed.

Lemma after_asym x y :
  In x elements -> In y elements -> after x y = true -> after y x = false.
Proof.
  intros Hx Hy.
  destruct (strict_weak_order_spec _ _ keys_ordered) as (Hasym & _).
  destruct (is_undefined x) eqn:Dx.
  - apply is_undefined_true in Dx as ->. intros _. apply after_undefined_r.
  - destruct (is_undefined y) eqn:Dy.
    + apply is_undefined_true in Dy as ->. now rewrite after_undefined_r.
    + rewrite !after_defined by trivial. apply Hasym; now apply key_in.
Qed.

Lemma after_negtrans x y z :
  In x elements -> In y elements -> In z elements ->
  after x y = false -> after y z = false -> after x z = false.
Proof.
  intros Hx Hy Hz.
  destruct (strict_weak_order_spec _ _ keys_ordered) as (_ & Hneg).
  destruct (is_undefined z) eqn:Dz.
  { apply is_undefined_true in Dz as ->. intros _ _. apply after_undefined_r. }
  destruct (is_undefined y) eqn:Dy.
  { apply is_undefined_true in Dy as ->. rewrite after_undefined_l, Dz. discriminate. }
  destruct (is_undefined x) eqn:Dx.
  { apply is_undefined_true in Dx as ->. rewrite after_undefined_l, Dy. discriminate. }
  rewrite !after_defined by trivial. intros E1 E2.
  apply (Hneg _ (key_of y)); trivial; now apply key_in.
Qed.

Lemma after_ascending_order a b :
  In a elements -> In b elements ->
  after a b = false -> ascending_order lessThan keySelector a b.
Proof.
  intros Ha Hb. destruct (is_undefined b) eqn:Db.
  { apply is_undefined_true in Db as ->. now destruct a. }
  destruct (is_undefined a) eqn:Da.
  { apply is_undefined_true in Da as ->. rewrite after_undefined_l, Db. discriminate. }
  rewrite after_defined by trivial.
  now destruct a, b.
Qed.

Lemma level_tied a b :
  In a elements -> In b elements ->
  sort_level (ascending lessThan keySelector) a b = tied lessThan keySelector a b.
Proof.
  intros Ha Hb. unfold sort_level.
  destruct (is_undefined a) eqn:Da.
  { apply is_undefined_true in Da as ->.
    rewrite after_undefined_l, after_undefined_r. now destruct b. }
  destruct (is_undefined b) eqn:Db.
  { apply is_undefined_true in Db as ->.
    rewrite after_undefined_l, after_undefined_r, Da. now destruct a. }
  rewrite !after_defined by trivial.
  destruct a, b; try discriminate; apply andb_comm.
Qed.

(** The array [orderBy] builds. *)
Lemma sort_ascending_spec :
  let result := Array.sort (ascending lessThan keySelector) elements in
  Permutation result elements /\
  StronglySorted (ascending_order lessThan keySelector) result /\
  stable (tied lessThan keySelector) result elements.
Proof.
  intros result. split; [apply sort_permutation|]. split.
  - apply (StronglySorted_weaken (fun a b => after a b = false)).
    + intros a b Ha Hb. apply after_ascending_order; eapply sort_In; eassumption.
    + apply (sort_sorted _ elements after_asym after_negtrans). intros z Hz; exact Hz.
  - intros a Ha. subst result.
    transitivity (List.filter (sort_level (ascending lessThan keySelector) a)
                    (Array.sort (ascending lessThan keySelector) elements)).
    { apply filter_ext_in. intros b Hb. symmetry.
      apply level_tied; [exact Ha | eapply sort_In; eassumption]. }
    rewrite (sort_stable _ elements after_negtrans elements (fun z Hz => Hz) a Ha).
    apply filter_ext_in. intros b Hb. now apply level_tied.
Qed.

End Ascending.

(** ** [orderBy] and [orderByDescending] *)

Lemma yields_orderBy lessThan h this elements keySelector :
  wraps h this elements ->
  yields (orderBy lessThan this keySelector) h
    (Array.sort (ascending lessThan keySelector) elements).
Proof.
  intros W. apply wraps_lookup in W as (c & Hthis & Hc).
  apply yields_wrapped, (orderBy_run lessThan h this c elements Hthis Hc).
Qed.

Lemma yields_orderByDescending lessThan h this elements keySelector :
  wraps h this elements ->
  yields (orderByDescending lessThan this keySelector) h
    (Array.sort (descending lessThan keySelector) elements).
Proof.
  intros W. apply wraps_lookup in W as (c & Hthis & Hc).
  apply yields_wrapped, (orderByDescending_run lessThan h this c elements Hthis Hc).
Qed.

Example orderBy_items :
  yields (orderBy number_lessThan 1%nat (get_property "k")) items
    [item_c; item_a; item_b].
Proof.
  exact (yields_orderBy number_lessThan items 1%nat [item_a; item_b; item_c]
           (get_property "k") eq_refl).
Qed.

Example orderByDescending_items :
  yields (orderByDescending number_lessThan 1%nat (get_property "k")) items
    [item_a; item_b; item_c].
Proof.
  exact (yields_orderByDescending number_lessThan items 1%nat [item_a; item_b; item_c]
           (get_property "k") eq_refl).
Qed.

(** What [orderBy] does on any sequence, [undefined] elements
    included: where [<] orders the keys of the elements other than
    [undefined], it returns a permutation of the input in which those
    elements come first, ascending by key, and the [undefined] elements
    come last; elements with tied keys keep their original relative
    order. *)
Theorem orderBy_sorted_stable lessThan h this elements keySelector :
  wraps h this elements ->
  strict_weak_order lessThan (List.map keySelector (defined elements)) = true ->
  exists result,
    yields (orderBy lessThan this keySelector) h result /\
    Permutation result elements /\
    StronglySorted (ascending_order lessThan keySelector) result /\
    stable (tied lessThan keySelector) result elements.
Proof.
  intros W K. eexists. split; [apply (yields_orderBy _ _ _ _ _ W)|].
  apply (sort_ascending_spec lessThan keySelector elements K).
Qed.

Lemma orderBy_sorted_stable_witness :
  wraps items 1%nat [item_a; item_b; item_c] /\
  strict_weak_order number_lessThan
    (List.map (get_property "k") (defined [item_a; item_b; item_c])) = true /\
  exists result,
    yields (orderBy number_lessThan 1%nat (get_property "k")) items result /\
    Permutation result [item_a; item_b; item_c] /\
    StronglySorted (ascending_order number_lessThan (get_property "k")) result /\
    stable (tied number_lessThan (get_property "k")) result [item_a; item_b; item_c].
Proof.
  split; [reflexivity|]. split; [reflexivity|].
  apply (orderBy_sorted_stable number_lessThan items 1%nat); reflexivity.
Defined.

Lemma defined_all l :
  Forall (fun x => x <> undefined) l -> defined l = l.
Proof.
  induction 1 as [|x l Hx _ IH]; [reflexivity|].
  unfold defined in *. simpl. destruct x; try congruence; simpl; now rewrite IH.
Qed.

Lemma tied_same_key lessThan keySelector a b :
  a <> undefined -> b <> undefined ->
  tied lessThan keySelector a b = same_key lessThan keySelector a b.
Proof. intros Ha Hb. destruct a, b; try congruence; reflexivity. Qed.

(** Without [undefined] elements the array [orderBy] builds is
    ascending by key throughout. *)
Lemma sort_ascending_without_undefined lessThan keySelector elements :
  Forall (fun x => x <> undefined) elements ->
  strict_weak_order lessThan (List.map keySelector elements) = true ->
  let result := Array.sort (ascending lessThan keySelector) elements in
  Permutation result elements /\
  StronglySorted
    (fun a b => lessThan (keySelector b) (keySelector a) = false) result /\
  stable (same_key lessThan keySelector) result elements.
Proof.
  intros D K result. rewrite <- (defined_all _ D) in K.
  destruct (sort_ascending_spec lessThan keySelector elements K) as (P & S & T).
  fold result in P, S, T. rewrite List.Forall_forall in D.
  assert (Dr : forall x, In x result -> x <> undefined).
  { intros x Hx. apply D. now apply (Permutation_in x P). }
  repeat split; trivial.
  - apply (StronglySorted_weaken (ascending_order lessThan keySelector)); trivial.
    intros a b Ha Hb. apply Dr in Ha, Hb. now destruct a, b.
  - intros a Ha.
    transitivity (List.filter (tied lessThan keySelector a) result).
    { apply filter_ext_in. intros b Hb. symmetry. apply tied_same_key; auto. }
    rewrite (T a Ha).
    apply filter_ext_in. intros b Hb. apply tied_same_key; auto.
Qed.

(** On sequences without [undefined] elements the result of [orderBy]
    is ascending by key throughout, and stable. *)
Lemma orderBy_without_undefined lessThan h this elements keySelector :
  wraps h this elements ->
  Forall (fun x => x <> undefined) elements ->
  orderBy_claim lessThan h this elements keySelector.
Proof.
  intros W D K. eexists. split; [apply (yields_orderBy _ _ _ _ _ W)|].
  now apply sort_ascending_without_undefined.
Qed.

(** With an [undefined] element the result need not be ascending by
    key. *)
Lemma orderBy_undefined_not_by_key :
  ~ orderBy_claim number_lessThan five_undefined_three 1%nat
      [VNumber 5; undefined; VNumber 3] (or_else 0).
Proof.
  intros C. destruct (C eq_refl) as (result & (q & h' & E & W) & _ & S & _).
  vm_compute in E. injection E as <- <-. vm_compute in W. injection W as <-.
  inversion S as [|? ? _ F]; subst. inversion F as [|? ? _ F']; subst.
  inversion F' as [|? ? U _]; subst. vm_compute in U. discriminate.
Qed.

(** C4: the code breaks the claim on a sequence with an [undefined]
    element.  [[5, undefined, 3]] ordered by [x => x ?? 0] comes out as
    [[3, 5, undefined]]: the keys are 3, 5, 0, and the last is less
    than the first, where the claim has the result ascending by key.
    [sort] places [undefined] elements last without calling the
    comparator, and [orderBy] does nothing about it. *)
Theorem orderBy_undefined_element :
  yields (orderBy number_lessThan 1%nat (or_else 0)) five_undefined_three
    [VNumber 3; VNumber 5; undefined] /\
  number_lessThan (or_else 0 undefined) (or_else 0 (VNumber 3)) = true.
Proof. split; [apply yields_wrapped|]; reflexivity. Qed.

(** What [orderByDescending] does on any sequence, [undefined]
    elements included: where [<] orders the keys of the elements other
    than [undefined], it returns a permutation of the input in which
    those elements come first, descending by key, and the [undefined]
    elements come last; elements with tied keys keep their original
    relative order; and the result differs from the ascending result
    reversed whenever some class of tied elements, in its original
    order, differs from its own reverse. *)
Theorem orderByDescending_sorted_stable lessThan h this elements keySelector :
  wraps h this elements ->
  strict_weak_order lessThan (List.map keySelector (defined elements)) = true ->
  exists result,
    yields (orderByDescending lessThan this keySelector) h result /\
    Permutation result elements /\
    StronglySorted (descending_order lessThan keySelector) result /\
    stable (tied lessThan keySelector) result elements /\
    (forall asc a,
       yields (orderBy lessThan this keySelector) h asc ->
       In a elements ->
       List.filter (tied lessThan keySelector a) elements
       <> rev (List.filter (tied lessThan keySelector a) elements) ->
       result <> rev asc).
Proof.
  intros W K. eexists. split; [apply (yields_orderByDescending _ _ _ _ _ W)|].
  rewrite sort_descending.
  destruct (sort_ascending_spec (flip_lessThan lessThan) keySelector elements
              (strict_weak_order_flip _ _ K)) as (P & S & T).
  assert (T' : stable (tied lessThan keySelector)
                 (Array.sort (ascending (flip_lessThan lessThan) keySelector) elements)
                 elements).
  { intros a Ha.
    rewrite <- !(filter_ext _ _ (tied_flip lessThan keySelector a)).
    apply T, Ha. }
  repeat split; trivial.
  intros asc a Y Ha Hne Heq.
  pose proof (yields_inj _ _ _ _ Y (yields_orderBy lessThan _ _ _ keySelector W)) as ->.
  destruct (sort_ascending_spec lessThan keySelector elements K) as (_ & _ & Ta).
  apply Hne. rewrite <- (T' a Ha) at 1. rewrite Heq.
  rewrite filter_rev. now rewrite (Ta a Ha).
Qed.

Lemma orderByDescending_sorted_stable_witness :
  wraps items 1%nat [item_a; item_b; item_c] /\
  strict_weak_order number_lessThan
    (List.map (get_property "k") (defined [item_a; item_b; item_c])) = true /\
  exists result,
    yields (orderByDescending number_lessThan 1%nat (get_property "k")) items result /\
    Permutation result [item_a; item_b; item_c] /\
    (forall asc,
       yields (orderBy number_lessThan 1%nat (get_property "k")) items asc ->
       result <> rev asc).
Proof.
  split; [reflexivity|]. split; [reflexivity|].
  destruct (orderByDescending_sorted_stable number_lessThan items 1%nat
              [item_a; item_b; item_c] (get_property "k") eq_refl eq_refl)
    as (result & Y & P & _ & _ & R).
  exists result. split; [exact Y|]. split; [exact P|].
  intros asc Yasc. apply (R asc item_a Yasc); [now left|].
  vm_compute. discriminate.
Defined.

(** On sequences without [undefined] elements the result of
    [orderByDescending] is descending by key throughout, and stable. *)
Lemma orderByDescending_without_undefined lessThan h this elements keySelector :
  wraps h this elements ->
  Forall (fun x => x <> undefined) elements ->
  strict_weak_order lessThan (List.map keySelector elements) = true ->
  exists result,
    yields (orderByDescending lessThan this keySelector) h result /\
    Permutation result elements /\
    StronglySorted
      (fun a b => lessThan (keySelector a) (keySelector b) = false) result /\
    stable (same_key lessThan keySelector) result elements.
Proof.
  intros W D K. eexists. split; [apply (yields_orderByDescending _ _ _ _ _ W)|].
  rewrite sort_descending.
  destruct (sort_ascending_without_undefined (flip_lessThan lessThan) keySelector
              elements D (strict_weak_order_flip _ _ K)) as (P & S & T).
  repeat split; trivial.
  intros a Ha.
  rewrite <- !(filter_ext _ _ (same_key_flip lessThan keySelector a)).
  apply T, Ha.
Qed.




(** With an [undefined] element the result of [orderByDescending] need
    not be descending by key: [[5, undefined, 3]] ordered by
    [x => x ?? 9] comes out as [[5, 3, undefined]], with keys 5, 3, 9. *)
Lemma orderByDescending_undefined_element :
  yields (orderByDescending number_lessThan 1%nat (or_else 9)) five_undefined_three
    [VNumber 5; VNumber 3; undefined] /\
  number_lessThan (or_else 9 (VNumber 5)) (or_else 9 undefined) = true.
Proof. split; [apply yields_wrapped|]; reflexivity. Qed.

(** ** [distinct] *)

Lemma svz_class_eqb_eq a b : svz_class_eqb a b = true <-> a = b.
Proof.
  destruct a, b; simpl; split; try discriminate; try reflexivity; intros H.
  - f_equal. now apply Bool.eqb_prop.
  - injection H as ->. apply Bool.eqb_reflx.
  - f_equal. now apply FloatAxioms.Leibniz.eqb_spec.
  - injection H as ->. now apply FloatAxioms.Leibniz.eqb_spec.
  - f_equal. now apply String.eqb_eq.
  - injection H as ->. apply String.eqb_refl.
  - f_equal. now apply Nat.eqb_eq.
  - injection H as ->. apply Nat.eqb_refl.
Qed.

(** SameValueZero is the equality of classes, hence an equivalence. *)
Lemma SameValueZero_eq a b :
  SameValueZero a b = true <-> classify_value a = classify_value b.
Proof. apply svz_class_eqb_eq. Qed.

Lemma SameValueZero_sym a b : SameValueZero a b = SameValueZero b a.
Proof.
  destruct (SameValueZero a b) eqn:E1, (SameValueZero b a) eqn:E2; trivial.
  - apply SameValueZero_eq in E1. symmetry in E1.
    apply SameValueZero_eq in E1. congruence.
  - apply SameValueZero_eq in E2. symmetry in E2.
    apply SameValueZero_eq in E2. congruence.
Qed.

Lemma SameValueZero_trans a b c :
  SameValueZero a b = true -> SameValueZero b c = true -> SameValueZero a c = true.
Proof. rewrite !SameValueZero_eq. congruence. Qed.

Section Distinct.

Variable keySelector : option (Selector value).

Abbreviation key := (distinct_key keySelector).

Abbreviation tracks := (holds_keys_of keySelector).

Lemma tracks_seen uniqueKeys earlier x :
  tracks uniqueKeys earlier ->
  JsSet.has uniqueKeys (key x) = true ->
  tracks uniqueKeys (earlier ++ [x]).
Proof.
  intros T Hx k. rewrite existsb_app. simpl. rewrite orb_false_r, <- T.
  destruct (SameValueZero (key x) k) eqn:E; [|now rewrite orb_false_r].
  rewrite orb_true_r. rewrite T in Hx |- *.
  apply existsb_exists in Hx as (y & Hy & Hyx).
  apply existsb_exists. exists y. split; [exact Hy|].
  now apply (SameValueZero_trans _ (key x)).
Qed.

Lemma tracks_new uniqueKeys earlier x :
  tracks uniqueKeys earlier ->
  JsSet.has uniqueKeys (key x) = false ->
  tracks (JsSet.add uniqueKeys (key x)) (earlier ++ [x]).
Proof.
  intros T Hx k. unfold JsSet.add. rewrite Hx.
  unfold JsSet.has. rewrite !existsb_app. simpl. rewrite !orb_false_r.
  fold (JsSet.has uniqueKeys k). rewrite T. f_equal. apply SameValueZero_sym.
Qed.

Lemma distinct_loop elements : forall uniqueKeys distinctItems earlier,
  tracks uniqueKeys earlier ->
  snd (fold_left (distinct_callback keySelector) elements (uniqueKeys, distinctItems))
  = distinctItems ++ first_occurrences key earlier elements.
Proof.
  induction elements as [|x rest IH]; intros uniqueKeys distinctItems earlier T.
  - simpl. now rewrite app_nil_r.
  - cbn [fold_left first_occurrences].
    unfold distinct_callback at 2. fold (distinct_key keySelector x).
    rewrite <- (T (key x)).
    destruct (JsSet.has uniqueKeys (key x)) eqn:E; cbn [negb].
    + apply IH. now apply tracks_seen.
    + rewrite (IH _ _ (earlier ++ [x])) by now apply tracks_new.
      now rewrite <- app_assoc.
Qed.

End Distinct.

Lemma first_occurrences_app key earlier l1 l2 :
  first_occurrences key earlier (l1 ++ l2)
  = first_occurrences key earlier l1 ++ first_occurrences key (earlier ++ l1) l2.
Proof.
  revert earlier. induction l1 as [|x l1 IH]; intros earlier; simpl.
  - now rewrite app_nil_r.
  - rewrite IH, <- app_assoc. simpl. now destruct (existsb _ earlier).
Qed.

(** The element at each position is retained exactly when no element
    before that position has its key. *)
Lemma first_occurrences_position key before x after :
  first_occurrences key [] (before ++ x :: after)
  = first_occurrences key [] before
    ++ (if existsb (fun y => SameValueZero (key y) (key x)) before then [] else [x])
    ++ first_occurrences key (before ++ [x]) after.
Proof.
  rewrite first_occurrences_app. simpl. now destruct (existsb _ before).
Qed.

Example distinct_numbers :
  yields (distinct 1%nat None) one_two_two_three_one (numbers [1; 2; 3]%float).
Proof. apply yields_wrapped. reflexivity. Qed.

(** C8: [distinct] returns, in their original order, exactly the
    elements that no earlier element of the sequence shares its key
    with: the first occurrence of each key is retained, every later
    element with a key already met is discarded. *)
Theorem distinct_keeps_first_occurrences h this elements keySelector :
  wraps h this elements ->
  yields (distinct this keySelector) h
    (first_occurrences (distinct_key keySelector) [] elements).
Proof.
  intros W. apply wraps_lookup in W as (c & Hthis & Hc).
  apply yields_wrapped. rewrite (distinct_run h this c elements Hthis Hc).
  f_equal. f_equal.
  apply (distinct_loop keySelector elements JsSet.empty [] []).
  intros k. reflexivity.
Qed.

Lemma distinct_keeps_first_occurrences_witness :
  wraps one_two_two_three_one 1%nat (numbers [1; 2; 2; 3; 1]%float) /\
  yields (distinct 1%nat None) one_two_two_three_one (numbers [1; 2; 3]%float).
Proof.
  split; [reflexivity|].
  exact (distinct_keeps_first_occurrences one_two_two_three_one 1%nat
           (numbers [1; 2; 2; 3; 1]%float) None eq_refl).
Defined.

(** ** [groupBy] *)

Section GroupBy.

Variable NumberToString : float -> string.
Variable keySelector : Selector GroupKey.

Abbreviation key_of := (fun x => ToPropertyKey NumberToString (keySelector x)).
Abbreviation group := (group_of NumberToString keySelector).
Abbreviation grouping := (groups_of NumberToString keySelector).

Lemma nonempty_Some g g' : nonempty g = Some g' -> g = g' /\ g <> [].
Proof. destruct g; simpl; [discriminate|]. intros [= <-]. now split. Qed.

Lemma nonempty_None g : nonempty g = None -> g = [].
Proof. now destruct g. Qed.

Lemma nonempty_snoc g x : nonempty (g ++ [x]) = Some (g ++ [x]).
Proof. now destruct g. Qed.

Lemma group_snoc key processed x :
  group key (processed ++ [x])
  = group key processed ++ (if String.eqb (key_of x) key then [x] else []).
Proof. unfold group_of. rewrite List.filter_app. reflexivity. Qed.

Lemma concat_groups_permutation (l1 l2 : list (string * list value)) :
  Permutation l1 l2 ->
  Permutation (concat (List.map snd l1)) (concat (List.map snd l2)).
Proof.
  induction 1 as [|[k g] l1 l2 _ IH|[k1 g1] [k2 g2] l|l1 l2 l3 _ IH1 _ IH2]; simpl.
  - reflexivity.
  - now apply Permutation_app_head.
  - rewrite !app_assoc. apply Permutation_app_tail, Permutation_app_comm.
  - now transitivity (concat (List.map snd l2)).
Qed.

Lemma members_insert_new (groups : PlainObject.t) key g :
  groups !! key = None ->
  Permutation (members (<[key := g]> groups)) (g ++ members groups).
Proof.
  intros E. unfold members.
  now rewrite (concat_groups_permutation _ _ (map_to_list_insert groups key g E)).
Qed.

Lemma members_insert_old (groups : PlainObject.t) key g g' :
  groups !! key = Some g ->
  Permutation (g ++ members (<[key := g']> groups)) (g' ++ members groups).
Proof.
  intros E. rewrite <- (insert_delete_eq groups).
  rewrite (members_insert_new (delete key groups) key g') by apply lookup_delete_eq.
  unfold members at 2.
  rewrite <- (concat_groups_permutation _ _ (map_to_list_delete groups key g E)).
  simpl. fold (members (delete key groups)).
  rewrite !app_assoc. apply Permutation_app_tail, Permutation_app_comm.
Qed.

(** One round of the callback on an element whose key is not an
    inherited property: the element joins the group of its key, and no
    other group changes. *)
Lemma groupBy_callback_plain groups processed x h :
  grouping groups processed ->
  plain_key NumberToString keySelector x ->
  exists groups',
    groupBy_callback NumberToString keySelector groups x h = Normal groups' h /\
    grouping groups' (processed ++ [x]) /\
    Permutation (members groups') (members groups ++ [x]).
Proof.
  intros G P. unfold groupBy_callback, PlainObject.get.
  pose proof (G (key_of x)) as Gx.
  destruct (groups !! key_of x) as [g|] eqn:E.
  - symmetry in Gx. apply nonempty_Some in Gx as (Gx & _).
    cbn [PlainObject.not_]. unfold PlainObject.push, PlainObject.get. rewrite E.
    eexists. split; [reflexivity|]. split.
    + intros key. rewrite group_snoc.
      destruct (String.eqb (key_of x) key) eqn:Ek.
      * apply String.eqb_eq in Ek as <-.
        rewrite lookup_insert_eq, Gx. now rewrite nonempty_snoc.
      * apply String.eqb_neq in Ek.
        rewrite lookup_insert_ne by exact Ek. rewrite app_nil_r. apply G.
    + apply (Permutation_app_inv_l g).
      rewrite (members_insert_old groups _ g (g ++ [x]) E).
      rewrite <- !app_assoc. apply Permutation_app_head, Permutation_app_comm.
  - symmetry in Gx. apply nonempty_None in Gx.
    unfold plain_key in P. rewrite P. cbn [PlainObject.not_].
    unfold PlainObject.push, PlainObject.get, PlainObject.set.
    rewrite lookup_insert_eq.
    eexists. split; [reflexivity|]. split.
    + intros key. rewrite group_snoc.
      destruct (String.eqb (key_of x) key) eqn:Ek.
      * apply String.eqb_eq in Ek as <-.
        rewrite lookup_insert_eq, Gx. reflexivity.
      * apply String.eqb_neq in Ek.
        rewrite !lookup_insert_ne by exact Ek. rewrite app_nil_r. apply G.
    + rewrite insert_insert_eq. rewrite (members_insert_new groups _ _ E).
      apply Permutation_app_comm.
Qed.

(** One round of the callback on an element whose key names an
    inherited property: [groups[key]] is that property, which is truthy
    and has no [push]. *)
Lemma groupBy_callback_inherited groups processed x h :
  grouping groups processed ->
  Forall (plain_key NumberToString keySelector) processed ->
  PlainObject.inherited (key_of x) = true ->
  groupBy_callback NumberToString keySelector groups x h = Throw TypeError.
Proof.
  intros G P I. unfold groupBy_callback, PlainObject.get.
  assert (E : groups !! key_of x = None).
  { rewrite G. replace (group (key_of x) processed) with (@nil value); [reflexivity|].
    symmetry. unfold group_of. clear G. induction P as [|y l Hy _ IH]; [reflexivity|].
    simpl. destruct (String.eqb (key_of y) (key_of x)) eqn:Ek; [|exact IH].
    apply String.eqb_eq in Ek. unfold plain_key in Hy. congruence. }
  rewrite E, I. cbn [PlainObject.not_].
  unfold PlainObject.push, PlainObject.get. now rewrite E, I.
Qed.

Lemma groupBy_loop rest : forall groups processed h,
  grouping groups processed ->
  Forall (plain_key NumberToString keySelector) rest ->
  exists groups',
    reduce_in_M (groupBy_callback NumberToString keySelector) rest groups h
    = Normal groups' h /\
    grouping groups' (processed ++ rest) /\
    Permutation (members groups') (members groups ++ rest).
Proof.
  induction rest as [|x rest IH]; intros groups processed h G P.
  - exists groups. rewrite !app_nil_r. now repeat split.
  - inversion P as [|? ? Px Prest]; subst.
    destruct (groupBy_callback_plain groups processed x h G Px) as (g1 & E1 & G1 & M1).
    destruct (IH g1 (processed ++ [x]) h G1 Prest) as (g2 & E2 & G2 & M2).
    exists g2. repeat split.
    + cbn [reduce_in_M]. unfold bind. now rewrite E1.
    + now rewrite <- app_assoc in G2.
    + rewrite M2, M1. now rewrite <- app_assoc.
Qed.

Lemma groupBy_loop_throws rest : forall groups processed h,
  grouping groups processed ->
  Forall (plain_key NumberToString keySelector) processed ->
  Exists (fun x => PlainObject.inherited (key_of x) = true) rest ->
  reduce_in_M (groupBy_callback NumberToString keySelector) rest groups h
  = Throw TypeError.
Proof.
  induction rest as [|x rest IH]; intros groups processed h G P X.
  - inversion X.
  - cbn [reduce_in_M]. unfold bind.
    destruct (PlainObject.inherited (key_of x)) eqn:I.
    + now rewrite (groupBy_callback_inherited groups processed x h G P I).
    + destruct (groupBy_callback_plain groups processed x h G I) as (g1 & E1 & G1 & _).
      rewrite E1. apply (IH g1 (processed ++ [x])); trivial.
      * apply Forall_app. split; [exact P | now constructor].
      * inversion X as [? ? Hx|]; subst; [congruence | assumption].
Qed.

Lemma grouping_empty : grouping PlainObject.empty [].
Proof. intros key. apply lookup_empty. Qed.

(** Where no key names an inherited property, [groupBy] returns the
    grouping: the group of each key holds the elements of that key, in
    source order, only keys that occur have a group, and the groups
    together are a permutation of the source. *)
Lemma groupBy_groups h this elements :
  wraps h this elements ->
  Forall (plain_key NumberToString keySelector) elements ->
  exists groups,
    groupBy NumberToString this keySelector h = Normal groups h /\
    grouping groups elements /\
    Permutation (members groups) elements.
Proof.
  intros W P. apply wraps_lookup in W as (c & Hthis & Hc).
  destruct (groupBy_loop elements PlainObject.empty [] h grouping_empty P)
    as (groups & E & G & Hm).
  exists groups. repeat split; trivial.
  unfold groupBy, bind, get_collection, read_array. now rewrite Hthis, Hc.
Qed.

(** Where some key names an inherited property, [groupBy] throws. *)
Lemma groupBy_throws h this elements :
  wraps h this elements ->
  Exists (fun x => PlainObject.inherited (key_of x) = true) elements ->
  groupBy NumberToString this keySelector h = Throw TypeError.
Proof.
  intros W X. apply wraps_lookup in W as (c & Hthis & Hc).
  unfold groupBy, bind, get_collection, read_array. rewrite Hthis, Hc.
  now apply (groupBy_loop_throws elements PlainObject.empty [] h grouping_empty).
Qed.

End GroupBy.

Example groupBy_people NumberToString :
  exists groups,
    groupBy NumberToString 1%nat by_name people = Normal groups people /\
    groups !! "Alice"%string = Some [person 1 "Alice" 30; person 4 "Alice" 28].
Proof.
  destruct (groupBy_groups NumberToString by_name people 1%nat _ eq_refl)
    as (groups & E & G & _).
  - repeat constructor.
  - exists groups. split; [exact E|]. now rewrite G.
Qed.

(** C5 fails on the code: grouping [[{name: 'constructor'}]] by name
    throws a [TypeError], where the claim has one group holding the
    element. *)
Theorem groupBy_constructor_key_throws NumberToString :
  groupBy NumberToString 1%nat by_name named_constructor = Throw TypeError.
Proof.
  apply (groupBy_throws NumberToString by_name named_constructor 1%nat _ eq_refl).
  now left.
Qed.

(** * Further properties of the class *)

(** ** What each operator yields *)

Lemma yields_where h this elements predicate :
  wraps h this elements ->
  yields (where_ this predicate) h (List.filter predicate elements).
Proof.
  intros W. apply wraps_lookup in W as (c & Hthis & Hc).
  apply yields_wrapped, (where_run h this c elements Hthis Hc).
Qed.

Lemma yields_select h this elements selector :
  wraps h this elements ->
  yields (select this selector) h (List.map selector elements).
Proof.
  intros W. apply wraps_lookup in W as (c & Hthis & Hc).
  apply yields_wrapped, (select_run h this c elements Hthis Hc).
Qed.

Lemma yields_take h this elements count :
  wraps h this elements ->
  yields (take this count) h
    (firstn (Array.relativeIndex (length elements) (ToIntegerOrInfinity count)) elements).
Proof.
  intros W. apply wraps_lookup in W as (c & Hthis & Hc).
  apply yields_wrapped. rewrite (take_run h this c elements Hthis Hc).
  now rewrite slice_from_start.
Qed.

Lemma yields_skip h this elements count :
  wraps h this elements ->
  yields (skip this count) h
    (skipn (Array.relativeIndex (length elements) (ToIntegerOrInfinity count)) elements).
Proof.
  intros W. apply wraps_lookup in W as (c & Hthis & Hc).
  apply yields_wrapped. rewrite (skip_run h this c elements Hthis Hc).
  now rewrite slice_to_end.
Qed.

Lemma yields_distinct h this elements keySelector :
  wraps h this elements ->
  yields (distinct this keySelector) h
    (first_occurrences (distinct_key keySelector) [] elements).
Proof.
  intros W. apply wraps_lookup in W as (c & Hthis & Hc).
  apply yields_wrapped. rewrite (distinct_run h this c elements Hthis Hc).
  f_equal. f_equal.
  apply (distinct_loop keySelector elements JsSet.empty [] []).
  intros k. reflexivity.
Qed.

(** A chained call: the second operator runs on the wrapper the first
    one returned. *)
Lemma yields_chain (m : M loc) (k : loc -> M loc) h elements result :
  yields m h elements ->
  (forall q h', wraps h' q elements -> yields (k q) h' result) ->
  yields (let* q := m in k q) h result.
Proof.
  intros (q & h' & E & W) K. destruct (K q h' W) as (q2 & h2 & E2 & W2).
  exists q2, h2. split; [|exact W2]. unfold bind. now rewrite E.
Qed.

Lemma scalar_chain {A : Type} (m : M loc) (k : loc -> M A) h elements (r : A) :
  yields m h elements ->
  (forall q h', wraps h' q elements -> k q h' = Normal r h') ->
  exists h', (let* q := m in k q) h = Normal r h'.
Proof.
  intros (q & h' & E & W) K. exists h'. unfold bind. rewrite E. now apply K.
Qed.

Lemma any_value h this elements predicate :
  wraps h this elements ->
  any this predicate h = Normal (existsb predicate elements) h.
Proof.
  intros W. apply wraps_lookup in W as (c & Hthis & Hc).
  unfold any, bind, get_collection. rewrite Hthis.
  unfold ArrayRef.some, bind, read_array, ret. now rewrite Hc.
Qed.

Lemma all_value h this elements predicate :
  wraps h this elements ->
  all this predicate h = Normal (forallb predicate elements) h.
Proof.
  intros W. apply wraps_lookup in W as (c & Hthis & Hc).
  unfold all, bind, get_collection. rewrite Hthis.
  unfold ArrayRef.every, bind, read_array, ret. now rewrite Hc.
Qed.

Lemma sum_value h this elements selector :
  wraps h this elements ->
  sum this selector h
  = Normal (fold_left (fun acc item => PrimFloat.add acc (selector item))
              elements PrimFloat.zero) h.
Proof.
  intros W. apply wraps_lookup in W as (c & Hthis & Hc).
  apply (sum_run h this c elements Hthis Hc).
Qed.

(** ** [any] and [all] *)

(** X1: [any] answers whether some element satisfies the predicate and
    [all] whether every element does; [any(p)] is the negation of
    [all] of the negated predicate; on the empty sequence [any] is
    false and [all] is true; neither changes the heap. *)
Theorem any_all_duality h this elements predicate :
  wraps h this elements ->
  exists a b,
    any this predicate h = Normal a h /\
    all this (fun x => negb (predicate x)) h = Normal b h /\
    a = negb b /\
    (a = true <-> exists x, In x elements /\ predicate x = true) /\
    (b = true <-> forall x, In x elements -> predicate x = false) /\
    (elements = [] -> a = false /\ b = true).
Proof.
  intros W. eexists _, _.
  split; [apply (any_value _ _ _ _ W)|]. split; [apply (all_value _ _ _ _ W)|].
  split; [|split; [|split]].
  - induction elements as [|x l IH] in |- *; [reflexivity|]. simpl.
    rewrite IH. now destruct (predicate x), (forallb _ l).
  - apply existsb_exists.
  - rewrite forallb_forall. split; intros H x Hx; specialize (H x Hx).
    + now apply negb_true_iff in H.
    + now apply negb_true_iff.
  - intros ->. now split.
Qed.

Lemma any_all_duality_witness :
  wraps one_two_three 1%nat (numbers [1; 2; 3]%float) /\
  exists a b,
    any 1%nat (number_lessThan (VNumber 2)) one_two_three = Normal a one_two_three /\
    all 1%nat (fun x => negb (number_lessThan (VNumber 2) x)) one_two_three
    = Normal b one_two_three /\
    a = negb b.
Proof.
  split; [reflexivity|].
  destruct (any_all_duality one_two_three 1%nat (numbers [1; 2; 3]%float)
              (number_lessThan (VNumber 2)) eq_refl) as (a & b & Ea & Eb & D & _).
  exists a, b. now repeat split.
Defined.

Lemma filter_all (predicate : Predicate) l :
  List.filter predicate l = l <-> forallb predicate l = true.
Proof.
  induction l as [|x l IH]; simpl; [tauto|].
  destruct (predicate x) eqn:E; simpl.
  - rewrite <- IH. split; congruence.
  - split; [|discriminate]. intros H.
    assert (L : (length (List.filter predicate l) <= length l)%nat)
      by apply List.filter_length_le.
    rewrite H in L. simpl in L. lia.
Qed.

Lemma filter_none (predicate : Predicate) l :
  List.filter predicate l = [] <-> existsb predicate l = false.
Proof.
  induction l as [|x l IH]; simpl; [tauto|].
  destruct (predicate x); simpl; [split; discriminate | exact IH].
Qed.

(** X2: [where(p)] keeps every element exactly when [all(p)] is true,
    and keeps none exactly when [any(p)] is false. *)
Theorem where_all_any h this elements predicate :
  wraps h this elements ->
  exists kept,
    yields (where_ this predicate) h kept /\
    (kept = elements <-> all this predicate h = Normal true h) /\
    (kept = [] <-> any this predicate h = Normal false h).
Proof.
  intros W. eexists. split; [apply (yields_where _ _ _ _ W)|].
  rewrite (all_value _ _ _ _ W), (any_value _ _ _ _ W).
  rewrite filter_all, filter_none. split; split; congruence.
Qed.

Lemma where_all_any_witness :
  wraps one_two_three 1%nat (numbers [1; 2; 3]%float) /\
  exists kept,
    yields (where_ 1%nat (number_lessThan (VNumber 0))) one_two_three kept /\
    (kept = numbers [1; 2; 3]%float <->
     all 1%nat (number_lessThan (VNumber 0)) one_two_three = Normal true one_two_three).
Proof.
  split; [reflexivity|].
  destruct (where_all_any one_two_three 1%nat (numbers [1; 2; 3]%float)
              (number_lessThan (VNumber 0)) eq_refl) as (kept & Y & A & _).
  exists kept. now split.
Defined.

(** ** Element access *)

(** X3: [first] returns the first element the predicate accepts (the
    first element when no predicate is given), and leaves the heap as
    it was. *)
Theorem first_returns_first_match h this elements predicate before x after :
  wraps h this elements ->
  elements = before ++ x :: after ->
  no_match predicate before ->
  accepts predicate x = true ->
  first this predicate h = Normal x h.
Proof.
  intros W -> N A. rewrite (first_value _ _ _ _ W).
  now rewrite (find_first_match _ _ _ _ N A).
Qed.

Lemma first_returns_first_match_witness :
  wraps one_two_three 1%nat (numbers [1; 2; 3]%float) /\
  first 1%nat (Some (number_lessThan (VNumber 1))) one_two_three
  = Normal (VNumber 2) one_two_three.
Proof.
  split; [reflexivity|].
  apply (first_returns_first_match one_two_three 1%nat (numbers [1; 2; 3]%float)
           (Some (number_lessThan (VNumber 1))) [VNumber 1] (VNumber 2) [VNumber 3]);
    try reflexivity.
  repeat constructor.
Defined.

(** X4: [last] returns the last element the predicate accepts (the
    last element when no predicate is given).  The reversal it runs is
    done on a copy: afterwards the receiver shows the same elements in
    the same order, and every object of the heap is as it was. *)
Theorem last_returns_last_match h this elements predicate before x after :
  wraps h this elements ->
  elements = before ++ x :: after ->
  no_match predicate after ->
  accepts predicate x = true ->
  exists h',
    last this predicate h = Normal x h' /\
    wraps h' this elements /\
    (forall i c, h !! i = Some c -> h' !! i = Some c).
Proof.
  intros W E N A. pose proof W as W0.
  apply wraps_lookup in W as (c & Hthis & Hc).
  rewrite (last_run h this c elements Hthis Hc).
  assert (V : Array.find (accepts predicate) (rev elements) = x).
  { subst elements. rewrite rev_app_distr. simpl. rewrite <- app_assoc. simpl.
    apply find_first_match; [now apply Forall_rev | exact A]. }
  destruct predicate as [p|].
  - exists (h ++ [ArrayCell (rev elements)]). split; [now rewrite <- V|].
    split; [now apply wraps_extend|].
    intros i c0 Hi. now apply lookup_app_l_Some.
  - exists h. rewrite get_last. split; [now rewrite <- V|]. now split.
Qed.

Lemma last_returns_last_match_witness :
  wraps one_two_three 1%nat (numbers [1; 2; 3]%float) /\
  exists h',
    last 1%nat (Some (fun x => number_lessThan x (VNumber 3))) one_two_three
    = Normal (VNumber 2) h' /\
    wraps h' 1%nat (numbers [1; 2; 3]%float).
Proof.
  split; [reflexivity|].
  destruct (last_returns_last_match one_two_three 1%nat (numbers [1; 2; 3]%float)
              (Some (fun x => number_lessThan x (VNumber 3)))
              [VNumber 1] (VNumber 2) [VNumber 3] eq_refl eq_refl)
    as (h' & E & W & _).
  - repeat constructor.
  - reflexivity.
  - exists h'. now split.
Defined.

(** X5: [firstOrDefault] and [lastOrDefault] return what [first] and
    [last] return, except that [undefined] is replaced by the default
    value (the argument given, [null] without one).  In particular the
    default value is returned when no element matches. *)
Theorem orDefault_agrees h this elements predicate defaultValue :
  wraps h this elements ->
  (exists r,
     first this predicate h = Normal r h /\
     firstOrDefault this predicate defaultValue h
     = Normal (if is_undefined r then default_parameter defaultValue null else r) h /\
     (no_match predicate elements -> r = undefined)) /\
  (exists r h',
     last this predicate h = Normal r h' /\
     lastOrDefault this predicate defaultValue h
     = Normal (if is_undefined r then default_parameter defaultValue null else r) h' /\
     (no_match predicate elements -> r = undefined)).
Proof.
  intros W. split.
  - eexists. split; [apply (first_value _ _ _ _ W)|].
    rewrite (firstOrDefault_value _ _ _ _ _ W). cbv zeta. split.
    + now destruct (Array.find _ _).
    + apply find_no_match.
  - pose proof W as W0. apply wraps_lookup in W as (c & Hthis & Hc).
    rewrite (last_run h this c elements Hthis Hc).
    rewrite (lastOrDefault_run h this c elements Hthis Hc). cbv zeta.
    eexists _, _. split; [reflexivity|]. split.
    + destruct predicate as [p|];
        [destruct (Array.find p (rev elements))
        |destruct (Array.get elements (Z.of_nat (length elements) - 1))];
        reflexivity.
    + intros N. destruct predicate; simpl.
      * apply find_no_match. now apply Forall_rev.
      * rewrite get_last. apply find_no_match. now apply Forall_rev.
Qed.

Lemma orDefault_agrees_witness :
  wraps one_two_three 1%nat (numbers [1; 2; 3]%float) /\
  firstOrDefault 1%nat (Some (number_lessThan (VNumber 5))) (VNumber 9) one_two_three
  = Normal (VNumber 9) one_two_three.
Proof.
  split; [reflexivity|].
  destruct (orDefault_agrees one_two_three 1%nat (numbers [1; 2; 3]%float)
              (Some (number_lessThan (VNumber 5))) (VNumber 9) eq_refl)
    as ((r & E & D & N) & _).
  rewrite D. rewrite N by (repeat constructor). reflexivity.
Defined.

(** ** [take] and [skip] *)

(** X6: whatever the count, [take(count)] followed by [skip(count)] is
    the whole sequence: the two split it at one index.  For a count
    whose integer part [k] lies within the sequence, [take] returns
    exactly its first [k] elements. *)
Theorem take_skip_partition h this elements count :
  wraps h this elements ->
  exists front back,
    yields (take this count) h front /\
    yields (skip this count) h back /\
    front ++ back = elements /\
    (forall k, ToIntegerOrInfinity count = Integer k ->
       0 <= k <= Z.of_nat (length elements) ->
       front = firstn (Z.to_nat k) elements /\ length front = Z.to_nat k).
Proof.
  intros W. eexists _, _.
  split; [apply (yields_take _ _ _ _ W)|]. split; [apply (yields_skip _ _ _ _ W)|].
  split; [apply firstn_skipn|].
  intros k -> Hk. simpl.
  destruct (k <? 0) eqn:E; [apply Z.ltb_lt in E; lia|].
  rewrite Z.min_l by lia. split; [reflexivity|].
  rewrite length_firstn. lia.
Qed.

Lemma take_skip_partition_witness :
  wraps one_two_three 1%nat (numbers [1; 2; 3]%float) /\
  exists front back,
    yields (take 1%nat (-2)%float) one_two_three front /\
    yields (skip 1%nat (-2)%float) one_two_three back /\
    front ++ back = numbers [1; 2; 3]%float.
Proof.
  split; [reflexivity|].
  destruct (take_skip_partition one_two_three 1%nat (numbers [1; 2; 3]%float)
              (-2)%float eq_refl) as (front & back & T & S & E & _).
  exists front, back. now repeat split.
Defined.

(** ** Operators that only remove elements *)

Lemma filter_sublist (predicate : Predicate) l :
  sublist (List.filter predicate l) l.
Proof.
  induction l as [|x l IH]; simpl; [constructor|].
  destruct (predicate x); now constructor.
Qed.

Lemma first_occurrences_sublist key earlier l :
  sublist (first_occurrences key earlier l) l.
Proof.
  revert earlier. induction l as [|x l IH]; intros earlier; simpl; [constructor|].
  destruct (existsb _ earlier); constructor; apply IH.
Qed.

(** X7: [where], [distinct], [take] and [skip] return a subsequence of
    the source (elements are removed, none is added, changed or
    reordered), so the result is never longer than the source;
    [select] returns as many elements as the source has. *)
Theorem narrowing_operators h this elements :
  wraps h this elements ->
  (forall predicate, exists r,
     yields (where_ this predicate) h r /\ sublist r elements) /\
  (forall keySelector, exists r,
     yields (distinct this keySelector) h r /\ sublist r elements) /\
  (forall count, exists r,
     yields (take this count) h r /\ sublist r elements) /\
  (forall count, exists r,
     yields (skip this count) h r /\ sublist r elements) /\
  (forall selector, exists r,
     yields (select this selector) h r /\ length r = length elements).
Proof.
  intros W. repeat split; intros arg; eexists.
  - split; [apply (yields_where _ _ _ _ W) | apply filter_sublist].
  - split; [apply (yields_distinct _ _ _ _ W) | apply first_occurrences_sublist].
  - split; [apply (yields_take _ _ _ _ W) | apply sublist_take].
  - split; [apply (yields_skip _ _ _ _ W) | apply sublist_drop].
  - split; [apply (yields_select _ _ _ _ W) | apply length_map].
Qed.

Lemma narrowing_operators_witness :
  wraps one_two_two_three_one 1%nat (numbers [1; 2; 2; 3; 1]%float) /\
  exists r,
    yields (distinct 1%nat None) one_two_two_three_one r /\
    sublist r (numbers [1; 2; 2; 3; 1]%float).
Proof.
  split; [reflexivity|].
  destruct (narrowing_operators one_two_two_three_one 1%nat
              (numbers [1; 2; 2; 3; 1]%float) eq_refl) as (_ & D & _).
  apply (D None).
Defined.

(** ** More on [distinct] *)

Section DistinctKeys.

Variable key : value -> value.

Abbreviation same x y := (SameValueZero (key x) (key y)).

Lemma first_occurrences_new earlier l y e :
  In y (first_occurrences key earlier l) -> In e earlier -> same e y = false.
Proof.
  revert earlier. induction l as [|x l IH]; intros earlier Hy He; [inversion Hy|].
  simpl in Hy. destruct (existsb _ earlier) eqn:E.
  - apply (IH (earlier ++ [x])); [exact Hy | apply in_or_app; now left].
  - destruct Hy as [<-|Hy].
    + destruct (same e x) eqn:S; [|reflexivity].
      assert (X : existsb (fun y => same y x) earlier = true)
        by (apply existsb_exists; eauto).
      congruence.
    + apply (IH (earlier ++ [x])); [exact Hy | apply in_or_app; now left].
Qed.

Lemma first_occurrences_pairwise earlier l :
  ForallOrdPairs (fun x y => same x y = false) (first_occurrences key earlier l).
Proof.
  revert earlier. induction l as [|x l IH]; intros earlier; simpl; [constructor|].
  destruct (existsb _ earlier); [apply IH|].
  constructor; [|apply IH].
  apply List.Forall_forall. intros y Hy.
  apply (first_occurrences_new (earlier ++ [x]) l y x Hy).
  apply in_or_app. right. now left.
Qed.

Lemma first_occurrences_covers earlier l x :
  In x l ->
  exists y, In y (earlier ++ first_occurrences key earlier l) /\ same y x = true.
Proof.
  revert earlier. induction l as [|z l IH]; intros earlier Hx; [inversion Hx|].
  simpl. destruct (existsb (fun y => same y z) earlier) eqn:E.
  - destruct Hx as [<-|Hx].
    + apply existsb_exists in E as (y & Hy & S). exists y. split; [|exact S].
      apply in_or_app. now left.
    + destruct (IH (earlier ++ [z]) Hx) as (y & Hy & S).
      rewrite <- app_assoc in Hy. apply in_app_or in Hy as [Hy|Hy].
      * exists y. split; [apply in_or_app; now left | exact S].
      * destruct Hy as [<-|Hy].
        -- apply existsb_exists in E as (e & He & Se). exists e.
           split; [apply in_or_app; now left|].
           now apply (SameValueZero_trans _ (key z)).
        -- exists y. split; [apply in_or_app; now right | exact S].
  - destruct Hx as [<-|Hx].
    + exists z. split; [apply in_or_app; right; now left|].
      now apply SameValueZero_eq.
    + destruct (IH (earlier ++ [z]) Hx) as (y & Hy & S).
      exists y. split; [|exact S].
      rewrite <- app_assoc in Hy. exact Hy.
Qed.

Lemma first_occurrences_fixed earlier r :
  ForallOrdPairs (fun x y => same x y = false) r ->
  (forall e y, In e earlier -> In y r -> same e y = false) ->
  first_occurrences key earlier r = r.
Proof.
  intros P. revert earlier. induction P as [|x r Hx _ IH]; intros earlier D;
    [reflexivity|].
  simpl. destruct (existsb (fun y => same y x) earlier) eqn:E.
  - apply existsb_exists in E as (e & He & S).
    rewrite (D e x He (or_introl eq_refl)) in S. discriminate.
  - f_equal. apply IH. intros e y He Hy.
    apply in_app_or in He as [He|[<-|[]]].
    + apply D; [exact He | now right].
    + rewrite List.Forall_forall in Hx. now apply Hx.
Qed.

End DistinctKeys.

(** X8: in the result of [distinct] no two elements have the same key,
    and every element of the source has its key carried by an element
    of the result. *)
Theorem distinct_keys h this elements keySelector :
  wraps h this elements ->
  exists r,
    yields (distinct this keySelector) h r /\
    ForallOrdPairs
      (fun x y => SameValueZero (distinct_key keySelector x)
                    (distinct_key keySelector y) = false) r /\
    (forall x, In x elements ->
       exists y, In y r /\
         SameValueZero (distinct_key keySelector y) (distinct_key keySelector x) = true).
Proof.
  intros W. eexists. split; [apply (yields_distinct _ _ _ _ W)|]. split.
  - apply first_occurrences_pairwise.
  - intros x Hx. apply (first_occurrences_covers _ [] elements x Hx).
Qed.

Lemma distinct_keys_witness :
  wraps one_two_two_three_one 1%nat (numbers [1; 2; 2; 3; 1]%float) /\
  exists r,
    yields (distinct 1%nat None) one_two_two_three_one r /\
    ForallOrdPairs
      (fun x y => SameValueZero (distinct_key None x) (distinct_key None y) = false) r.
Proof.
  split; [reflexivity|].
  destruct (distinct_keys one_two_two_three_one 1%nat
              (numbers [1; 2; 2; 3; 1]%float) None eq_refl) as (r & Y & P & _).
  exists r. now split.
Defined.

(** X9: [distinct] is idempotent: applied to its own result with the
    same key selector, it returns the same elements. *)
Theorem distinct_idempotent h this elements keySelector :
  wraps h this elements ->
  exists r,
    yields (distinct this keySelector) h r /\
    yields (let* once := distinct this keySelector in distinct once keySelector) h r.
Proof.
  intros W. eexists. split; [apply (yields_distinct _ _ _ _ W)|].
  apply (yields_chain _ _ _ _ _ (yields_distinct _ _ _ keySelector W)).
  intros q h' W'.
  replace (first_occurrences (distinct_key keySelector) [] elements)
    with (first_occurrences (distinct_key keySelector) []
            (first_occurrences (distinct_key keySelector) [] elements)).
  - now apply yields_distinct.
  - apply first_occurrences_fixed; [apply first_occurrences_pairwise|].
    intros e y [].
Qed.

Lemma distinct_idempotent_witness :
  wraps one_two_two_three_one 1%nat (numbers [1; 2; 2; 3; 1]%float) /\
  exists r,
    yields (distinct 1%nat None) one_two_two_three_one r /\
    yields (let* once := distinct 1%nat None in distinct once None)
      one_two_two_three_one r.
Proof.
  split; [reflexivity|].
  apply (distinct_idempotent one_two_two_three_one 1%nat
           (numbers [1; 2; 2; 3; 1]%float) None eq_refl).
Defined.

(** ** Chains of operators *)

Lemma filter_filter (p q : Predicate) l :
  List.filter q (List.filter p l) = List.filter (fun x => p x && q x) l.
Proof.
  induction l as [|x l IH]; [reflexivity|]. simpl.
  destruct (p x); simpl; [|exact IH]. destruct (q x); now rewrite IH.
Qed.

Lemma fold_left_map {A : Type} (f : A -> value -> A) (g : value -> value) l a :
  fold_left f (List.map g l) a = fold_left (fun acc x => f acc (g x)) l a.
Proof. revert a. induction l as [|x l IH]; intros a; simpl; [reflexivity | apply IH]. Qed.

(** X10: two [where] in a row keep what one [where] with the
    conjunction of the predicates keeps; two [select] in a row project
    as one [select] with the composed selector; and a [select] after a
    [where] can be exchanged with a [where] on the projected value. *)
Theorem where_select_fusion h this elements (p q : Predicate) (f g : Selector value) :
  wraps h this elements ->
  (exists r,
     yields (let* kept := where_ this p in where_ kept q) h r /\
     yields (where_ this (fun x => p x && q x)) h r) /\
  (exists r,
     yields (let* mapped := select this f in select mapped g) h r /\
     yields (select this (fun x => g (f x))) h r) /\
  (exists r,
     yields (let* mapped := select this f in where_ mapped q) h r /\
     yields (let* kept := where_ this (fun x => q (f x)) in select kept f) h r).
Proof.
  intros W. split; [|split]; eexists; split.
  - apply (yields_chain _ _ _ _ _ (yields_where _ _ _ p W)).
    intros k h' W'. apply (yields_where _ _ _ q W').
  - rewrite filter_filter. apply (yields_where _ _ _ _ W).
  - apply (yields_chain _ _ _ _ _ (yields_select _ _ _ f W)).
    intros k h' W'. apply (yields_select _ _ _ g W').
  - rewrite List.map_map. apply (yields_select _ _ _ _ W).
  - apply (yields_chain _ _ _ _ _ (yields_select _ _ _ f W)).
    intros k h' W'. apply (yields_where _ _ _ q W').
  - apply (yields_chain _ _ _ _ _ (yields_where _ _ _ (fun x => q (f x)) W)).
    intros k h' W'.
    replace (List.filter q (List.map f elements))
      with (List.map f (List.filter (fun x => q (f x)) elements)).
    + apply (yields_select _ _ _ f W').
    + clear. induction elements as [|x l IH]; [reflexivity|]. simpl.
      destruct (q (f x)); simpl; now rewrite IH.
Qed.

Lemma where_select_fusion_witness :
  wraps one_two_three 1%nat (numbers [1; 2; 3]%float) /\
  exists r,
    yields (let* kept := where_ 1%nat (number_lessThan (VNumber 1)) in
            where_ kept (fun x => number_lessThan x (VNumber 3))) one_two_three r /\
    yields (where_ 1%nat (fun x => number_lessThan (VNumber 1) x
                                   && number_lessThan x (VNumber 3))) one_two_three r.
Proof.
  split; [reflexivity|].
  destruct (where_select_fusion one_two_three 1%nat (numbers [1; 2; 3]%float)
              (number_lessThan (VNumber 1)) (fun x => number_lessThan x (VNumber 3))
              (fun x => x) (fun x => x) eq_refl) as (F & _).
  exact F.
Defined.

(** X11: summing a projection is summing through the composed
    selector: [select(f).sum(g)] returns what [sum(x => g(f(x)))]
    returns, the additions being the same in the same order. *)
Theorem select_sum_fusion h this elements (f : Selector value) (g : Selector float) :
  wraps h this elements ->
  exists total h',
    sum this (fun x => g (f x)) h = Normal total h /\
    (let* mapped := select this f in sum mapped g) h = Normal total h'.
Proof.
  intros W. eexists.
  destruct (scalar_chain (select this f) (fun q => sum q g) h _
              (fold_left (fun acc x => PrimFloat.add acc (g (f x))) elements PrimFloat.zero)
              (yields_select _ _ _ f W)) as (h' & E).
  - intros q h' W'. rewrite (sum_value _ _ _ _ W'). now rewrite fold_left_map.
  - exists h'. split; [apply (sum_value _ _ _ _ W) | exact E].
Qed.

Lemma select_sum_fusion_witness :
  wraps people 1%nat
    [person 1 "Alice" 30; person 2 "Bob" 25; person 3 "Charlie" 35; person 4 "Alice" 28] /\
  exists total h',
    sum 1%nat (fun x => to_number (get_property "age" x)) people = Normal total people /\
    (let* mapped := select 1%nat (get_property "age") in sum mapped to_number) people
    = Normal total h'.
Proof.
  split; [reflexivity|].
  apply (select_sum_fusion people 1%nat _ (get_property "age") to_number eq_refl).
Defined.

(** ** More on [groupBy] *)

(** X12: where no key names a property that every object inherits,
    [groupBy] returns normally; each element is in the group of its
    key; each group is not empty and holds exactly the elements of its
    key, in source order; all the groups together are a permutation of
    the source. *)
Theorem groupBy_partition NumberToString h this elements keySelector :
  wraps h this elements ->
  Forall (plain_key NumberToString keySelector) elements ->
  exists groups,
    groupBy NumberToString this keySelector h = Normal groups h /\
    (forall x, In x elements ->
       exists g, groups !! ToPropertyKey NumberToString (keySelector x) = Some g /\
                 In x g) /\
    (forall key g, groups !! key = Some g ->
       g <> [] /\ g = group_of NumberToString keySelector key elements) /\
    Permutation (members groups) elements.
Proof.
  intros W P.
  destruct (groupBy_groups NumberToString keySelector h this elements W P)
    as (groups & E & G & Hm).
  exists groups. repeat split; trivial.
  - intros x Hx. rewrite G.
    assert (I : In x (group_of NumberToString keySelector
                        (ToPropertyKey NumberToString (keySelector x)) elements)).
    { apply filter_In. split; [exact Hx | apply String.eqb_refl]. }
    destruct (group_of _ _ _ elements) as [|y g] eqn:Eg; [inversion I|].
    eexists. split; [reflexivity | exact I].
  - rewrite G in H. apply nonempty_Some in H as [<- H]. exact H.
  - rewrite G in H. apply nonempty_Some in H as [<- _]. reflexivity.
Qed.

Lemma groupBy_partition_witness :
  wraps people 1%nat
    [person 1 "Alice" 30; person 2 "Bob" 25; person 3 "Charlie" 35; person 4 "Alice" 28] /\
  exists groups,
    groupBy (fun _ => "0"%string) 1%nat by_name people = Normal groups people /\
    Permutation (members groups)
      [person 1 "Alice" 30; person 2 "Bob" 25; person 3 "Charlie" 35; person 4 "Alice" 28].
Proof.
  split; [reflexivity|].
  destruct (groupBy_partition (fun _ => "0"%string) people 1%nat _ by_name eq_refl)
    as (groups & E & _ & _ & Hm).
  - repeat constructor.
  - exists groups. now split.
Defined.

(** X13: [groupBy] throws a [TypeError] as soon as the key of some
    element names a property that every object inherits
    ([constructor], [toString], [valueOf], [hasOwnProperty],
    [__proto__], ...), whatever the other elements are. *)
Theorem groupBy_inherited_key_throws NumberToString h this elements keySelector x :
  wraps h this elements ->
  In x elements ->
  PlainObject.inherited (ToPropertyKey NumberToString (keySelector x)) = true ->
  groupBy NumberToString this keySelector h = Throw TypeError.
Proof.
  intros W Hx I. apply (groupBy_throws NumberToString keySelector h this elements W).
  apply List.Exists_exists. now exists x.
Qed.

Lemma groupBy_inherited_key_throws_witness :
  wraps named_constructor 1%nat [VObject 1 [("name", VString "constructor")]%string] /\
  groupBy (fun _ => "0"%string) 1%nat by_name named_constructor = Throw TypeError.
Proof.
  split; [reflexivity|].
  apply (groupBy_inherited_key_throws (fun _ => "0"%string) named_constructor 1%nat
           [VObject 1 [("name", VString "constructor")]%string] by_name
           (VObject 1 [("name", VString "constructor")]%string) eq_refl).
  - now left.
  - reflexivity.
Defined.

(** ** More on [orderBy] and [orderByDescending] *)

Lemma sort_sorted_fixed lessThan keySelector elements :
  strict_weak_order lessThan (List.map keySelector (defined elements)) = true ->
  Array.sort (ascending lessThan keySelector)
    (Array.sort (ascending lessThan keySelector) elements)
  = Array.sort (ascending lessThan keySelector) elements.
Proof.
  intros K. symmetry.
  apply (sort_unique _ elements (after_asym _ _ _ K) (after_negtrans _ _ _ K)).
  - intros z Hz. eapply sort_In; eassumption.
  - reflexivity.
  - apply (sort_sorted _ elements (after_asym _ _ _ K) (after_negtrans _ _ _ K)).
    intros z Hz; exact Hz.
  - intros a Ha. reflexivity.
Qed.

(** X14: where [<] orders the keys of the elements other than
    [undefined], ordering twice by the same key is ordering once:
    [orderBy] leaves its own result as it is, and so does
    [orderByDescending]. *)
Theorem orderBy_idempotent lessThan h this elements keySelector :
  wraps h this elements ->
  strict_weak_order lessThan (List.map keySelector (defined elements)) = true ->
  (exists r,
     yields (orderBy lessThan this keySelector) h r /\
     yields (let* once := orderBy lessThan this keySelector in
             orderBy lessThan once keySelector) h r) /\
  (exists r,
     yields (orderByDescending lessThan this keySelector) h r /\
     yields (let* once := orderByDescending lessThan this keySelector in
             orderByDescending lessThan once keySelector) h r).
Proof.
  intros W K. split; eexists; split.
  - apply (yields_orderBy _ _ _ _ _ W).
  - apply (yields_chain _ _ _ _ _ (yields_orderBy lessThan _ _ _ keySelector W)).
    intros q h' W'.
    replace (Array.sort (ascending lessThan keySelector) elements)
      with (Array.sort (ascending lessThan keySelector)
              (Array.sort (ascending lessThan keySelector) elements))
      by apply (sort_sorted_fixed _ _ _ K).
    apply (yields_orderBy _ _ _ _ _ W').
  - apply (yields_orderByDescending _ _ _ _ _ W).
  - apply (yields_chain _ _ _ _ _ (yields_orderByDescending lessThan _ _ _ keySelector W)).
    intros q h' W'.
    replace (Array.sort (descending lessThan keySelector) elements)
      with (Array.sort (descending lessThan keySelector)
              (Array.sort (descending lessThan keySelector) elements))
      by exact (sort_sorted_fixed (flip_lessThan lessThan) keySelector elements
                  (strict_weak_order_flip _ _ K)).
    apply (yields_orderByDescending _ _ _ _ _ W').
Qed.

Lemma orderBy_idempotent_witness :
  wraps items 1%nat [item_a; item_b; item_c] /\
  exists r,
    yields (orderBy number_lessThan 1%nat (get_property "k")) items r /\
    yields (let* once := orderBy number_lessThan 1%nat (get_property "k") in
            orderBy number_lessThan once (get_property "k")) items r.
Proof.
  split; [reflexivity|].
  destruct (orderBy_idempotent number_lessThan items 1%nat [item_a; item_b; item_c]
              (get_property "k") eq_refl eq_refl) as (A & _).
  exact A.
Defined.

Lemma StronglySorted_snoc (R : value -> value -> Prop) l a :
  StronglySorted R l -> Forall (fun y => R y a) l -> StronglySorted R (l ++ [a]).
Proof.
  induction 1 as [|x l Hl IH Hx]; intros F; simpl; [repeat constructor|].
  inversion F as [|? ? Rx F']; subst. constructor; [now apply IH|].
  apply Forall_app. split; [exact Hx | now constructor].
Qed.

Lemma StronglySorted_rev (R : value -> value -> Prop) l :
  StronglySorted R l -> StronglySorted (fun a b => R b a) (rev l).
Proof.
  induction 1 as [|x l Hl IH Hx]; simpl; [constructor|].
  apply StronglySorted_snoc; [exact IH | now apply Forall_rev].
Qed.

Lemma defined_is_undefined x : x <> undefined -> is_undefined x = false.
Proof. destruct x; simpl; congruence. Qed.

(** The reverse of the ascending array is the descending array when no
    class of tied elements depends on the order it is read in. *)
Lemma sort_descending_reversed lessThan keySelector elements :
  Forall (fun x => x <> undefined) elements ->
  strict_weak_order lessThan (List.map keySelector elements) = true ->
  (forall a, In a elements ->
     List.filter (same_key lessThan keySelector a) elements
     = rev (List.filter (same_key lessThan keySelector a) elements)) ->
  Array.sort (descending lessThan keySelector) elements
  = rev (Array.sort (ascending lessThan keySelector) elements).
Proof.
  intros D K Hp. rewrite sort_descending.
  destruct (sort_ascending_without_undefined lessThan keySelector elements D K)
    as (P & _ & T).
  rewrite <- (defined_all _ D) in K.
  pose proof (strict_weak_order_flip _ _ K) as Kf.
  rewrite List.Forall_forall in D.
  assert (In_rev : forall z,
             In z (rev (Array.sort (ascending lessThan keySelector) elements)) ->
             In z elements).
  { intros z Hz. apply in_rev in Hz. eapply sort_In; eassumption. }
  symmetry.
  apply (sort_unique _ elements (after_asym _ _ _ Kf) (after_negtrans _ _ _ Kf)).
  - intros z Hz; exact Hz.
  - rewrite <- Permutation_rev. exact P.
  - apply (StronglySorted_weaken
             (fun a b => sort_after (ascending lessThan keySelector) b a = false)).
    + intros a b Ha Hb. apply In_rev in Ha, Hb.
      rewrite (after_defined _ _ _ K b a), (after_defined _ _ _ Kf a b);
        auto using defined_is_undefined.
    + apply StronglySorted_rev.
      apply (sort_sorted _ elements (after_asym _ _ _ K) (after_negtrans _ _ _ K)).
      intros z Hz; exact Hz.
  - intros a Ha.
    assert (L : forall b, In b elements ->
              sort_level (ascending (flip_lessThan lessThan) keySelector) a b
              = same_key lessThan keySelector a b).
    { intros b Hb. rewrite (level_tied _ _ _ Kf a b Ha Hb), tied_flip.
      apply tied_same_key; auto. }
    rewrite (filter_ext_in _ (same_key lessThan keySelector a)
               (rev (Array.sort (ascending lessThan keySelector) elements)))
      by (intros b Hb; apply L, In_rev, Hb).
    rewrite (filter_ext_in _ (same_key lessThan keySelector a) elements)
      by (intros b Hb; apply L, Hb).
    rewrite filter_rev, (T a Ha). symmetry. now apply Hp.
Qed.

(** X15: on a sequence without [undefined] elements whose keys [<]
    orders, when every class of elements with tied keys reads the same
    in both directions (in particular when no two elements have tied
    keys), [orderByDescending] returns the result of [orderBy]
    reversed. *)
Theorem orderByDescending_reverses_orderBy lessThan h this elements keySelector :
  wraps h this elements ->
  Forall (fun x => x <> undefined) elements ->
  strict_weak_order lessThan (List.map keySelector elements) = true ->
  (forall a, In a elements ->
     List.filter (same_key lessThan keySelector a) elements
     = rev (List.filter (same_key lessThan keySelector a) elements)) ->
  exists asc,
    yields (orderBy lessThan this keySelector) h asc /\
    yields (orderByDescending lessThan this keySelector) h (rev asc).
Proof.
  intros W D K Hp. eexists. split; [apply (yields_orderBy _ _ _ _ _ W)|].
  rewrite <- (sort_descending_reversed _ _ _ D K Hp).
  apply (yields_orderByDescending _ _ _ _ _ W).
Qed.

Lemma orderByDescending_reverses_orderBy_witness :
  wraps ages 1%nat (numbers [30; 25; 35; 28]%float) /\
  exists asc,
    yields (orderBy number_lessThan 1%nat (fun x => x)) ages asc /\
    yields (orderByDescending number_lessThan 1%nat (fun x => x)) ages (rev asc).
Proof.
  split; [reflexivity|].
  apply (orderByDescending_reverses_orderBy number_lessThan ages 1%nat
           (numbers [30; 25; 35; 28]%float) (fun x => x) eq_refl).
  - repeat constructor; discriminate.
  - reflexivity.
  - intros a [<-|[<-|[<-|[<-|[]]]]]; reflexivity.
Defined.

(** ** Sharing of arrays *)

(** X16: the constructor keeps the array it is given and [toArray]
    returns that very array: a wrapper shows the elements of the array
    it was built on, and after the array is updated in place, the
    wrapper shows the new elements. *)
Theorem constructor_keeps_the_array h arr elements :
  h !! arr = Some (ArrayCell elements) ->
  exists q h1,
    new_Queryable arr h = Normal q h1 /\
    toArray q h1 = Normal arr h1 /\
    wraps h1 q elements /\
    (forall changed, exists h2,
       write_array arr changed h1 = Normal tt h2 /\
       toArray q h2 = Normal arr h2 /\
       wraps h2 q changed).
Proof.
  intros Harr. pose proof (lookup_lt_Some _ _ _ Harr) as Lt.
  exists (length h), (h ++ [QueryableCell arr]).
  assert (Hq : (h ++ [QueryableCell arr]) !! length h = Some (QueryableCell arr))
    by apply lookup_snoc.
  assert (Ha : (h ++ [QueryableCell arr]) !! arr = Some (ArrayCell elements))
    by now apply lookup_app_l_Some.
  split; [reflexivity|]. split; [|split].
  - unfold toArray, get_collection. now rewrite Hq.
  - apply wraps_lookup. eauto.
  - intros changed. eexists. unfold write_array. rewrite Ha.
    split; [reflexivity|].
    assert (Hq' : <[arr := ArrayCell changed]> (h ++ [QueryableCell arr]) !! length h
                  = Some (QueryableCell arr)).
    { rewrite list_lookup_insert_ne by lia. exact Hq. }
    split.
    + unfold toArray, get_collection. now rewrite Hq'.
    + apply wraps_lookup. exists arr. split; [exact Hq'|].
      apply list_lookup_insert_eq. rewrite length_app. simpl. lia.
Qed.

Lemma constructor_keeps_the_array_witness :
  [ArrayCell (numbers [1; 2]%float)] !! 0%nat = Some (ArrayCell (numbers [1; 2]%float)) /\
  exists q h1,
    new_Queryable 0%nat [ArrayCell (numbers [1; 2]%float)] = Normal q h1 /\
    toArray q h1 = Normal 0%nat h1.
Proof.
  split; [reflexivity|].
  destruct (constructor_keeps_the_array [ArrayCell (numbers [1; 2]%float)] 0%nat
              (numbers [1; 2]%float) eq_refl) as (q & h1 & E & T & _).
  exists q, h1. now split.
Defined.

(** X17: the result of [select], [where], [orderBy],
    [orderByDescending], [distinct], [take] or [skip] shares no array
    with its source: when the source array is later updated in place,
    the source wrapper shows the new elements and the result still
    shows what the operator returned. *)
Theorem results_are_independent lessThan op h this elements :
  wraps h this elements ->
  exists q h' result arr,
    apply_operator lessThan op this h = Normal q h' /\
    wraps h' q result /\
    toArray this h' = Normal arr h' /\
    (forall changed, exists h2,
       write_array arr changed h' = Normal tt h2 /\
       wraps h2 this changed /\
       wraps h2 q result).
Proof.
  intros W. apply wraps_lookup in W as (c & Hthis & Hc).
  destruct (apply_operator_run lessThan op h this c elements Hthis Hc)
    as (result & E).
  pose proof (lookup_lt_Some _ _ _ Hthis) as Lthis.
  pose proof (lookup_lt_Some _ _ _ Hc) as Lc.
  assert (Ne : this <> c) by (intros ->; congruence).
  destruct (wrapped_frame h result) as (Hframe & _ & _ & _).
  pose proof (wraps_wrapped h result) as Wq.
  apply wraps_lookup in Wq as (c' & Hq & Hc').
  assert (Ec' : c' = length h).
  { unfold wrapped in Hq. rewrite lookup_app_r in Hq by lia.
    replace (S (length h) - length h)%nat with 1%nat in Hq by lia.
    simpl in Hq. congruence. }
  subst c'.
  exists (S (length h)), (wrapped h result), result, c.
  split; [exact E|]. split; [apply wraps_wrapped|]. split.
  - unfold toArray, get_collection. now rewrite (Hframe _ _ Hthis).
  - intros changed. eexists. unfold write_array. rewrite (Hframe _ _ Hc).
    split; [reflexivity|]. split; apply wraps_lookup.
    + exists c. split.
      * rewrite list_lookup_insert_ne by congruence. now apply Hframe.
      * apply list_lookup_insert_eq. unfold wrapped. rewrite length_app. lia.
    + exists (length h). split.
      * rewrite list_lookup_insert_ne by lia. exact Hq.
      * rewrite list_lookup_insert_ne by lia. exact Hc'.
Qed.

Lemma results_are_independent_witness :
  wraps one_two_three 1%nat (numbers [1; 2; 3]%float) /\
  exists q h' result arr,
    apply_operator number_lessThan (Take 2) 1%nat one_two_three = Normal q h' /\
    wraps h' q result /\
    toArray 1%nat h' = Normal arr h' /\
    (forall changed, exists h2,
       write_array arr changed h' = Normal tt h2 /\
       wraps h2 1%nat changed /\
       wraps h2 q result).
Proof.
  split; [reflexivity|].
  apply (results_are_independent number_lessThan (Take 2) one_two_three 1%nat
           (numbers [1; 2; 3]%float) eq_refl).
Defined.

(** ** Operators that return a value *)

Lemma average_value h this elements selector :
  wraps h this elements ->
  average this selector h
  = Normal (PrimFloat.div
              (fold_left (fun acc item => PrimFloat.add acc (selector item))
                 elements PrimFloat.zero)
              (Number_of_length (length elements))) h.
Proof.
  intros W. apply wraps_lookup in W as (c & Hthis & Hc).
  apply (average_run h this c elements Hthis Hc).
Qed.

(** X18: [sum], [average], [any], [all], [first], [firstOrDefault] and
    [toArray] return normally and leave the heap exactly as it was:
    they allocate nothing and update nothing. *)
Theorem reading_operators_leave_the_heap h this elements
    (selector : Selector float) (predicate : Predicate)
    (optional : option Predicate) (defaultValue : value) :
  wraps h this elements ->
  (exists r, sum this selector h = Normal r h) /\
  (exists r, average this selector h = Normal r h) /\
  (exists r, any this predicate h = Normal r h) /\
  (exists r, all this predicate h = Normal r h) /\
  (exists r, first this optional h = Normal r h) /\
  (exists r, firstOrDefault this optional defaultValue h = Normal r h) /\
  (exists arr, toArray this h = Normal arr h /\ h !! arr = Some (ArrayCell elements)).
Proof.
  intros W. repeat split.
  - eexists. apply (sum_value _ _ _ _ W).
  - eexists. apply (average_value _ _ _ _ W).
  - eexists. apply (any_value _ _ _ _ W).
  - eexists. apply (all_value _ _ _ _ W).
  - eexists. apply (first_value _ _ _ _ W).
  - eexists. apply (firstOrDefault_value _ _ _ _ _ W).
  - apply wraps_lookup in W as (c & Hthis & Hc). exists c.
    split; [|exact Hc]. unfold toArray, get_collection. now rewrite Hthis.
Qed.

Lemma reading_operators_leave_the_heap_witness :
  wraps ages 1%nat (numbers [30; 25; 35; 28]%float) /\
  exists r, average 1%nat to_number ages = Normal r ages.
Proof.
  split; [reflexivity|].
  destruct (reading_operators_leave_the_heap ages 1%nat (numbers [30; 25; 35; 28]%float)
              to_number (fun _ => true) None null eq_refl) as (_ & A & _).
  exact A.
Defined.

(** ** Paging *)

Lemma relativeIndex_nonnegative len k :
  0 <= k -> Array.relativeIndex len (Integer k) = Nat.min (Z.to_nat k) len.
Proof.
  intros Hk. simpl. destruct (k <? 0) eqn:E; [apply Z.ltb_lt in E; lia|]. lia.
Qed.

Lemma firstn_min n (l : list value) : firstn (Nat.min n (length l)) l = firstn n l.
Proof.
  destruct (Nat.le_ge_cases n (length l)) as [H|H].
  - now rewrite Nat.min_l.
  - rewrite Nat.min_r by exact H. now rewrite firstn_all, firstn_all2.
Qed.

Lemma skipn_min n (l : list value) : skipn (Nat.min n (length l)) l = skipn n l.
Proof.
  destruct (Nat.le_ge_cases n (length l)) as [H|H].
  - now rewrite Nat.min_l.
  - rewrite Nat.min_r by exact H. now rewrite skipn_all, skipn_all2.
Qed.

(** X19: for counts whose integer parts [a] and [b] are not negative,
    [skip(a)] followed by [take(b)] returns the [b] elements that
    follow the first [a] (fewer when the sequence ends before), and
    nothing when [a] is at least the length. *)
Theorem skip_then_take h this elements countA countB a b :
  wraps h this elements ->
  ToIntegerOrInfinity countA = Integer a -> 0 <= a ->
  ToIntegerOrInfinity countB = Integer b -> 0 <= b ->
  exists page,
    yields (let* rest := skip this countA in take rest countB) h page /\
    page = firstn (Z.to_nat b) (skipn (Z.to_nat a) elements) /\
    (length page <= Z.to_nat b)%nat /\
    (Z.of_nat (length elements) <= a -> page = []).
Proof.
  intros W Ea Ha Eb Hb. eexists. split; [|split; [reflexivity|split]].
  - apply (yields_chain _ _ _ _ _ (yields_skip _ _ _ countA W)).
    intros q h' W'. rewrite Ea, relativeIndex_nonnegative, skipn_min in W' by exact Ha.
    pose proof (yields_take _ _ _ countB W') as T.
    now rewrite Eb, relativeIndex_nonnegative, firstn_min in T by exact Hb.
  - rewrite length_firstn. lia.
  - intros L. rewrite skipn_all2 by lia. now destruct (Z.to_nat b).
Qed.

Lemma skip_then_take_witness :
  wraps ages 1%nat (numbers [30; 25; 35; 28]%float) /\
  exists page,
    yields (let* rest := skip 1%nat 1%float in take rest 2%float) ages page /\
    page = numbers [25; 35]%float.
Proof.
  split; [reflexivity|].
  destruct (skip_then_take ages 1%nat (numbers [30; 25; 35; 28]%float)
              1%float 2%float 1 2 eq_refl eq_refl ltac:(lia) eq_refl ltac:(lia))
    as (page & Y & E & _).
  exists page. split; [exact Y | exact E].
Defined.

(** ** The empty sequence *)

Lemma slice_nil start end_ : Array.slice start end_ [] = [].
Proof. unfold Array.slice. rewrite skipn_nil. apply firstn_nil. Qed.

(** X20: on the empty sequence no operator throws: every operator that
    returns a wrapper returns an empty one, [first] and [last] return
    [undefined], [firstOrDefault] and [lastOrDefault] the default
    value, [sum] zero, [any] false, [all] true, and [groupBy] an object
    without groups. *)
Theorem empty_sequence lessThan NumberToString h this :
  wraps h this [] ->
  (forall op, yields (apply_operator lessThan op this) h []) /\
  (forall predicate,
     first this predicate h = Normal undefined h /\
     exists h', last this predicate h = Normal undefined h') /\
  (forall predicate defaultValue,
     firstOrDefault this predicate defaultValue h
     = Normal (default_parameter defaultValue null) h /\
     exists h', lastOrDefault this predicate defaultValue h
                = Normal (default_parameter defaultValue null) h') /\
  (forall selector, sum this selector h = Normal PrimFloat.zero h) /\
  (forall predicate,
     any this predicate h = Normal false h /\ all this predicate h = Normal true h) /\
  (forall keySelector,
     groupBy NumberToString this keySelector h = Normal PlainObject.empty h).
Proof.
  intros W. pose proof W as W0. apply wraps_lookup in W0 as (c & Hthis & Hc).
  split; [|split; [|split; [|split; [|split]]]].
  - intros op. apply yields_wrapped.
    destruct op; simpl.
    + apply (select_run h this c [] Hthis Hc).
    + apply (where_run h this c [] Hthis Hc).
    + apply (orderBy_run lessThan h this c [] Hthis Hc).
    + apply (orderByDescending_run lessThan h this c [] Hthis Hc).
    + apply (distinct_run h this c [] Hthis Hc).
    + rewrite (take_run h this c [] Hthis Hc). now rewrite slice_nil.
    + rewrite (skip_run h this c [] Hthis Hc). now rewrite slice_nil.
  - intros predicate. split.
    + rewrite (first_value _ _ _ _ W). reflexivity.
    + destruct (last_value _ _ _ predicate W) as (h' & E). exists h'. exact E.
  - intros predicate defaultValue. split.
    + rewrite (firstOrDefault_value _ _ _ _ _ W). reflexivity.
    + destruct (lastOrDefault_value _ _ _ predicate defaultValue W) as (h' & E).
      exists h'. exact E.
  - intros selector. apply (sum_value _ _ _ _ W).
  - intros predicate. split; [apply (any_value _ _ _ _ W) | apply (all_value _ _ _ _ W)].
  - intros keySelector.
    unfold groupBy, bind, get_collection. rewrite Hthis.
    unfold read_array. now rewrite Hc.
Qed.

Lemma empty_sequence_witness :
  wraps empty_array 1%nat [] /\
  forall op, yields (apply_operator number_lessThan op 1%nat) empty_array [].
Proof.
  split; [reflexivity|].
  destruct (empty_sequence number_lessThan (fun _ => "0"%string) empty_array 1%nat
              eq_refl) as (O & _).
  exact O.
Defined.
